(** * Adaptivity drivers of the Hermes2D tutorial

    Shallow embedding of the two adaptivity drivers

      - [D-adaptivity/05-hcurl/main.cpp] (static hp-adaptivity, module [Hcurl])
      - [D-adaptivity/08-transient-space-only/main.cpp] (adaptivity in space
        inside a Runge-Kutta time stepping loop, module [Transient])

    The Hermes2D library itself (meshes, spaces, solvers, projection, error
    calculation, candidate selection) is not part of the tutorial sources.
    It enters through the interface [Hermes2D] below; the drivers are
    written against that interface in a state-and-exception monad, one
    action per statement of the respective [main]. *)

From Stdlib Require Import ZArith QArith Lia Sorted.
From stdpp Require Import gmap list strings.

Local Open Scope Z_scope.

(** ** Exceptions and outcomes *)

(** [Hermes::Exceptions::Exception]: the only exception type the drivers
    catch.  It carries its message. *)
Inductive Exn : Type :=
| HermesException (msg : string).

(** Result of running a piece of driver code from a state of type [St]:
    normal completion, an uncaught exception, or a loop that used up its
    fuel. *)
Inductive Outcome (St A : Type) : Type :=
| Ret (a : A) (s : St)
| Throw (e : Exn) (s : St)
| OutOfFuel.
Arguments Ret {St A} a s.
Arguments Throw {St A} e s.
Arguments OutOfFuel {St A}.

Definition M (St A : Type) : Type := St -> Outcome St A.

Definition ret {St A} (a : A) : M St A := fun s => Ret a s.

Definition bind {St A B} (m : M St A) (k : A -> M St B) : M St B :=
  fun s =>
    match m s with
    | Ret a s' => k a s'
    | Throw e s' => Throw e s'
    | OutOfFuel => OutOfFuel
    end.

Definition throw {St A} (e : Exn) : M St A := fun s => Throw e s.

(** [try { body } catch (Exception& e) { handler e }] *)
Definition try_catch {St A} (body : M St A) (handler : Exn -> M St A) : M St A :=
  fun s =>
    match body s with
    | Ret a s' => Ret a s'
    | Throw e s' => handler e s'
    | OutOfFuel => OutOfFuel
    end.

Definition gets {St A} (f : St -> A) : M St A := fun s => Ret (f s) s.
Definition modify {St} (f : St -> St) : M St unit := fun s => Ret tt (f s).

Declare Scope drv_scope.
Delimit Scope drv_scope with drv.
Notation "'let*' x := m 'in' k" := (bind m (fun x => k))
  (at level 10, x pattern, m at level 100, k at level 200) : drv_scope.
Notation "m >> k" := (bind m (fun _ => k))
  (at level 90, right associativity) : drv_scope.

(** [do { body } while (cond);]  The body runs at least once. *)
Fixpoint do_while {St} (fuel : nat) (body : M St unit) (cond : St -> bool) : M St unit :=
  match fuel with
  | O => fun _ => OutOfFuel
  | S n => bind body (fun _ => fun s => if cond s then do_while n body cond s else Ret tt s)
  end.

(** [for (int i = 0; i < n; i++) f] on a pure value. *)
Fixpoint iterate {A} (n : nat) (f : A -> A) (a : A) : A :=
  match n with
  | O => a
  | S k => iterate k f (f a)
  end.

(** ** The Hermes2D interface *)

(** Polynomial order of one element: horizontal and vertical component, as
    in the four-argument [Space::adjust_element_order]. *)
Record ElemOrder : Type := mkOrder { ord_h : Z; ord_v : Z }.

(** Order of an element that has no element data yet. *)
Definition order_unset : ElemOrder := mkOrder (-1) (-1).

(** A space: the mesh it lives on, the per-element orders indexed by element
    id, and the number of degrees of freedom of the last [assign_dofs]. *)
Record Space (Mesh : Type) : Type := mkSpace {
  sp_mesh : Mesh;
  sp_edata : gmap nat ElemOrder;
  sp_ndof : Z
}.
Arguments mkSpace {Mesh}.
Arguments sp_mesh {Mesh}.
Arguments sp_edata {Mesh}.
Arguments sp_ndof {Mesh}.

Class Hermes2D : Type := {
  (** C++ [double] with the operations the drivers use *)
  double : Type;
  dlt : double -> double -> bool;
  dadd : double -> double -> double;
  dmul : double -> double -> double;
  dlit : Q -> double;
  (** coefficients, meshes, mesh functions, per-element errors *)
  Scalar : Type;
  scalar_zero : Scalar;
  Mesh : Type;
  Sln : Type;
  ElemErrors : Type;
  empty_sln : Sln;
  (** Discretization Provider *)
  active_elements : Mesh -> list nat;
  refine_all_elements : Mesh -> Mesh;
  unrefine_all_elements : Mesh -> Mesh;
  create_ref_mesh : Mesh -> Mesh;
  create_ref_space : Space Mesh -> Mesh -> Space Mesh;
  count_dofs : Mesh -> gmap nat ElemOrder -> Z;
  (** Solve Provider: [lib_newton_solve ref_space coeff_vec old] is the
      solver's solution vector after the call, with the exception it raised
      if it did not converge; [lib_rk_time_step] likewise for one Runge-Kutta
      step, whose last argument and first result are the contents of the
      output mesh function. *)
  lib_newton_solve : Space Mesh -> list Scalar -> list Scalar -> list Scalar * option Exn;
  lib_rk_time_step : Space Mesh -> double -> double -> Sln -> Sln -> Sln * option Exn;
  vector_to_solution : list Scalar -> Space Mesh -> Sln;
  (** Projector *)
  project_global : Space Mesh -> Sln -> Sln;
  (** Error Estimator: total relative error and per-element errors *)
  lib_calc_err : Space Mesh -> Sln -> Sln -> double * ElemErrors;
  (** Candidate Selector: the refined space and the "nothing refined" flag *)
  lib_adapt : Space Mesh -> option ElemErrors -> Space Mesh * bool
}.

Section Library.
Context `{H2D : Hermes2D}.

Definition get_num_dofs (sp : Space Mesh) : Z := sp_ndof sp.

Definition get_element_order (sp : Space Mesh) (id : nat) : ElemOrder :=
  default order_unset (sp_edata sp !! id).

Definition set_mesh (m : Mesh) (sp : Space Mesh) : Space Mesh :=
  mkSpace m (sp_edata sp) (sp_ndof sp).

Definition set_element_order_internal (id : nat) (o : ElemOrder) (sp : Space Mesh) : Space Mesh :=
  mkSpace (sp_mesh sp) (<[id := o]> (sp_edata sp)) (sp_ndof sp).

(** [Space::assign_dofs]: renumber the degrees of freedom. *)
Definition assign_dofs (sp : Space Mesh) : Space Mesh :=
  mkSpace (sp_mesh sp) (sp_edata sp) (count_dofs (sp_mesh sp) (sp_edata sp)).

(** Modelled from the spec: [Space::set_uniform_order], which is library code.
    "uniform base polynomial degree": every active element gets order [p] in
    both directions. *)
Definition set_uniform_order (p : Z) (sp : Space Mesh) : Space Mesh :=
  fold_left (fun s id => set_element_order_internal id (mkOrder p p) s)
            (active_elements (sp_mesh sp)) sp.

(** Modelled from the spec: [Space::adjust_element_order], which is library
    code.  "decrement degree by one (bounded below by the base degree)": the
    order of every active element is changed by the given amounts and
    bounded below by the given minimal orders. *)
Definition adjust_one (dh dv hmin vmin : Z) (o : ElemOrder) : ElemOrder :=
  mkOrder (Z.max (ord_h o + dh) hmin) (Z.max (ord_v o + dv) vmin).

Definition adjust_step (dh dv hmin vmin : Z) (s : Space Mesh) (id : nat) : Space Mesh :=
  set_element_order_internal id (adjust_one dh dv hmin vmin (get_element_order s id)) s.

Definition adjust_element_order (dh dv hmin vmin : Z) (sp : Space Mesh) : Space Mesh :=
  fold_left (adjust_step dh dv hmin vmin) (active_elements (sp_mesh sp)) sp.

(** [new H1Space(mesh, &bcs, p_init)] / [new HcurlSpace(mesh, &bcs, p_init)]:
    uniform order on the mesh, degrees of freedom assigned. *)
Definition new_space (mesh : Mesh) (p_init : Z) : Space Mesh :=
  assign_dofs (set_uniform_order p_init (mkSpace mesh ∅ 0)).

(** [Adapt<Scalar>]: the space it adapts and the per-element errors of the
    last error calculation that was made for adaptivity. *)
Record Adapt : Type := mkAdapt {
  ad_space : Space Mesh;
  ad_errors : option ElemErrors
}.

Definition new_Adapt (sp : Space Mesh) : Adapt := mkAdapt sp None.

(** Modelled from the spec: [Adapt::calc_err_est] and [Adapt::calc_err_exact]
    are library code.  Both compute the total relative error; the
    per-element errors are kept for [adapt] only if [solutions_for_adapt]. *)
Definition calc_err_internal (ad : Adapt) (sln rsln : Sln) (solutions_for_adapt : bool)
  : double * Adapt :=
  let '(total, errs) := lib_calc_err (ad_space ad) sln rsln in
  (total, if solutions_for_adapt then mkAdapt (ad_space ad) (Some errs) else ad).

Definition calc_err_est (ad : Adapt) (sln rsln : Sln) : double * Adapt :=
  calc_err_internal ad sln rsln true.

Definition calc_err_exact (ad : Adapt) (sln rsln : Sln) (solutions_for_adapt : bool)
  : double * Adapt :=
  calc_err_internal ad sln rsln solutions_for_adapt.

(** [SimpleGraph]: the list of added (x, y) values, oldest first. *)
Definition SimpleGraph : Type := list (Z * double).

Definition add_values (x : Z) (y : double) (g : SimpleGraph) : SimpleGraph := g ++ [(x, y)].

(** Messages of [Loggable::Static::info]. *)
Inductive LogMsg : Type :=
| MsgErrorEstimate (err : double)
| MsgGlobalDerefinement
| MsgTimeStep (ts a : Z)
| MsgProjecting
| MsgCalculating
| MsgReport (ndof_coarse ndof_ref : Z) (err : double)
| MsgAdapting.

(** Calls into the library and output, in program order. *)
Inductive Event : Type :=
| EvRefSpace (coarse ref : Space Mesh)
| EvNewtonSolve (ref : Space Mesh) (coeff_vec : list Scalar)
| EvRkStep (ref : Space Mesh) (time step : double) (prev : Sln)
| EvPrintMsg (e : Exn)
| EvInfo (msg : LogMsg)
| EvProject (sp : Space Mesh) (src : Sln)
| EvShow (title : string)
| EvSaveVtk (file : string)
| EvCalcErr (sp : Space Mesh) (coarse fine : Sln)
| EvCalcErrExact (sp : Space Mesh) (coarse : Sln)
| EvSaveGraph (file : string) (g : SimpleGraph)
| EvAdapt (before after : Space Mesh) (nothing_refined : bool)
| EvDerefine (method : Z) (after : Space Mesh)
| EvCopyPrev (new : Sln).

End Library.

(** ** D-adaptivity/05-hcurl/main.cpp *)

Module Hcurl.
Section Driver.
Context `{H2D : Hermes2D}.

(** The parameters at the head of the file.  [NDOF_STOP] is used by [main]
    but declared in no source file of the tutorial; it is a parameter. *)
Record Config : Type := mkConfig {
  HERMES_VISUALIZATION : bool;
  P_INIT : Z;
  INIT_REF_NUM : nat;
  THRESHOLD : double;
  ERR_STOP : double;
  NDOF_STOP : Z
}.

Definition default_config (ndof_stop : Z) : Config :=
  mkConfig true 2 1 (dlit (3 # 10)) (dlit 1) ndof_stop.

(** The variables of [main] that live across adaptivity steps.  The step
    counter [as] is a C [int]; its overflow is undefined, and the model
    follows it as an integer. *)
Record State : Type := mkState {
  space : Space Mesh;
  sln : Sln;
  ref_sln : Sln;
  sln_exact : Sln;
  newton_space : Space Mesh;
  newton_sln_vector : list Scalar;
  graph_dof_est : SimpleGraph;
  graph_cpu_est : SimpleGraph;
  graph_dof_exact : SimpleGraph;
  graph_cpu_exact : SimpleGraph;
  as_ : Z;
  done : bool;
  trace : list Event
}.

Definition set_space v (s : State) : State :=
  mkState v (sln s) (ref_sln s) (sln_exact s) (newton_space s) (newton_sln_vector s)
    (graph_dof_est s) (graph_cpu_est s) (graph_dof_exact s) (graph_cpu_exact s)
    (as_ s) (done s) (trace s).
Definition set_sln v (s : State) : State :=
  mkState (space s) v (ref_sln s) (sln_exact s) (newton_space s) (newton_sln_vector s)
    (graph_dof_est s) (graph_cpu_est s) (graph_dof_exact s) (graph_cpu_exact s)
    (as_ s) (done s) (trace s).
Definition set_ref_sln v (s : State) : State :=
  mkState (space s) (sln s) v (sln_exact s) (newton_space s) (newton_sln_vector s)
    (graph_dof_est s) (graph_cpu_est s) (graph_dof_exact s) (graph_cpu_exact s)
    (as_ s) (done s) (trace s).
Definition set_newton_space v (s : State) : State :=
  mkState (space s) (sln s) (ref_sln s) (sln_exact s) v (newton_sln_vector s)
    (graph_dof_est s) (graph_cpu_est s) (graph_dof_exact s) (graph_cpu_exact s)
    (as_ s) (done s) (trace s).
Definition set_newton_sln_vector v (s : State) : State :=
  mkState (space s) (sln s) (ref_sln s) (sln_exact s) (newton_space s) v
    (graph_dof_est s) (graph_cpu_est s) (graph_dof_exact s) (graph_cpu_exact s)
    (as_ s) (done s) (trace s).
Definition set_graph_dof_est v (s : State) : State :=
  mkState (space s) (sln s) (ref_sln s) (sln_exact s) (newton_space s) (newton_sln_vector s)
    v (graph_cpu_est s) (graph_dof_exact s) (graph_cpu_exact s)
    (as_ s) (done s) (trace s).
Definition set_graph_dof_exact v (s : State) : State :=
  mkState (space s) (sln s) (ref_sln s) (sln_exact s) (newton_space s) (newton_sln_vector s)
    (graph_dof_est s) (graph_cpu_est s) v (graph_cpu_exact s)
    (as_ s) (done s) (trace s).
Definition set_as v (s : State) : State :=
  mkState (space s) (sln s) (ref_sln s) (sln_exact s) (newton_space s) (newton_sln_vector s)
    (graph_dof_est s) (graph_cpu_est s) (graph_dof_exact s) (graph_cpu_exact s)
    v (done s) (trace s).
Definition set_done v (s : State) : State :=
  mkState (space s) (sln s) (ref_sln s) (sln_exact s) (newton_space s) (newton_sln_vector s)
    (graph_dof_est s) (graph_cpu_est s) (graph_dof_exact s) (graph_cpu_exact s)
    (as_ s) v (trace s).
Definition emit_ev (e : Event) (s : State) : State :=
  mkState (space s) (sln s) (ref_sln s) (sln_exact s) (newton_space s) (newton_sln_vector s)
    (graph_dof_est s) (graph_cpu_est s) (graph_dof_exact s) (graph_cpu_exact s)
    (as_ s) (done s) (trace s ++ [e]).

Definition emit (e : Event) : M State unit := modify (emit_ev e).
Definition info (m : LogMsg) : M State unit := emit (EvInfo m).

Local Open Scope drv_scope.

(** [newton.solve(coeff_vec)]: updates the solver's solution vector and
    throws if the solver did not converge. *)
Definition newton_solve (coeff_vec : list Scalar) : M State unit :=
  let* rs := gets newton_space in
  let* old := gets newton_sln_vector in
  emit (EvNewtonSolve rs coeff_vec) >>
  let '(v, r) := lib_newton_solve rs coeff_vec old in
  modify (set_newton_sln_vector v) >>
  match r with
  | Some e => throw e
  | None => ret tt
  end.

(** [e.print_msg()] *)
Definition print_msg (e : Exn) : M State unit := emit (EvPrintMsg e).

Variable cfg : Config.

(** Lines 118-172 of [main]: reference space, solve, projection, error
    estimate and exact error, convergence graphs.  Returns the adaptivity
    object of the step and [err_est_rel]. *)
Definition estimate : M State (Adapt * double) :=
  (* Construct globally refined reference mesh and setup reference space. *)
  let* sp := gets space in
  let ref_mesh := create_ref_mesh (sp_mesh sp) in
  let ref_space := create_ref_space sp ref_mesh in
  emit (EvRefSpace sp ref_space) >>
  modify (set_newton_space ref_space) >>
  let ndof_ref := get_num_dofs ref_space in
  (* Initial coefficient vector for the Newton's method. *)
  let coeff_vec := replicate (Z.to_nat ndof_ref) scalar_zero in
  try_catch (newton_solve coeff_vec) (fun e => print_msg e) >>
  let* v := gets newton_sln_vector in
  modify (set_ref_sln (vector_to_solution v ref_space)) >>
  (* Project the fine mesh solution onto the coarse mesh. *)
  let* rsln := gets ref_sln in
  emit (EvProject sp rsln) >>
  modify (set_sln (project_global sp rsln)) >>
  (* View the coarse mesh solution and polynomial orders. *)
  (if HERMES_VISUALIZATION cfg
   then emit (EvShow "Solution (magnitude)") >>
        emit (EvShow "Polynomial orders") >>
        emit (EvSaveVtk "sln.vtk") >>
        emit (EvSaveVtk "mesh.vtk")
   else ret tt) >>
  (* Calculate element errors and total error estimate. *)
  let adaptivity := new_Adapt sp in
  let* s := gets sln in
  emit (EvCalcErr sp s rsln) >>
  let '(est, adaptivity) := calc_err_est adaptivity s rsln in
  let err_est_rel := dmul est (dlit 100) in
  info (MsgErrorEstimate err_est_rel) >>
  (* Calculate exact error. *)
  let solutions_for_adapt := false in
  let* exact := gets sln_exact in
  emit (EvCalcErrExact sp s) >>
  let '(ex, adaptivity) := calc_err_exact adaptivity s exact solutions_for_adapt in
  let err_exact_rel := dmul ex (dlit 100) in
  (* Add entry to DOF and CPU convergence graphs. *)
  modify (fun st =>
            set_graph_dof_est
              (add_values (get_num_dofs sp) err_est_rel (graph_dof_est st)) st) >>
  (let* g := gets graph_dof_est in emit (EvSaveGraph "conv_dof_est.dat" g)) >>
  modify (fun st =>
            set_graph_dof_exact
              (add_values (get_num_dofs sp) err_exact_rel (graph_dof_exact st)) st) >>
  (let* g := gets graph_dof_exact in emit (EvSaveGraph "conv_dof_exact.dat" g)) >>
  ret (adaptivity, err_est_rel).

(** [adaptivity.adapt(&selector)]: refines the working space in place.
    Inside the loop [adaptivity] names the object of the step, created by
    [new Adapt(space)], on which the errors were calculated. *)
Definition adapt (adaptivity : Adapt) : M State bool :=
  let* sp := gets space in
  let '(sp', d) := lib_adapt sp (ad_errors adaptivity) in
  modify (set_space sp') >>
  emit (EvAdapt sp sp' d) >>
  ret d.

(** Lines 174-183 of [main]. *)
Definition decide (adaptivity : Adapt) (err_est_rel : double) : M State unit :=
  (* If err_est_rel too large, adapt the mesh. *)
  (if dlt err_est_rel (ERR_STOP cfg) then modify (set_done true)
   else
     let* d := adapt adaptivity in
     modify (set_done d) >>
     (* Increase the counter of performed adaptivity steps. *)
     (if negb d then modify (fun st => set_as (as_ st + 1) st) else ret tt)) >>
  let* sp := gets space in
  if NDOF_STOP cfg <=? get_num_dofs sp then modify (set_done true) else ret tt.

(** The body of the adaptivity loop. *)
Definition adapt_step : M State unit :=
  let* (adaptivity, err_est_rel) := estimate in
  decide adaptivity err_est_rel.

(** [do { ... } while (done == false);] *)
Definition adaptivity_loop (fuel : nat) : M State unit :=
  do_while fuel adapt_step (fun st => negb (done st)).

(** Lines 66-115 of [main]: the state in which the loop is entered, for the
    mesh read from the mesh file and the exact solution. *)
Definition init_state (mesh0 : Mesh) (exact : Sln) : State :=
  let mesh := iterate (INIT_REF_NUM cfg) refine_all_elements mesh0 in
  let sp := new_space mesh (P_INIT cfg) in
  mkState sp empty_sln empty_sln exact sp [] [] [] [] [] 1 false [].

(** [main]: the loop, then lines 191-200, the view of the reference
    solution. *)
Definition main (fuel : nat) (mesh0 : Mesh) (exact : Sln) : Outcome State unit :=
  (adaptivity_loop fuel >>
   if HERMES_VISUALIZATION cfg then emit (EvShow "Fine mesh solution (magnitude)")
   else ret tt) (init_state mesh0 exact).

End Driver.
End Hcurl.

(** ** D-adaptivity/08-transient-space-only/main.cpp *)

Module Transient.
Section Driver.
Context `{H2D : Hermes2D}.

(** The parameters at the head of the file.  [NDOF_STOP] is used by [main]
    but declared in no source file of the tutorial; it is a parameter. *)
Record Config : Type := mkConfig {
  INIT_REF_NUM : nat;
  P_INIT : Z;
  time_step : double;
  T_FINAL : double;
  UNREF_FREQ : Z;
  UNREF_METHOD : Z;
  THRESHOLD : double;
  ERR_STOP : double;
  NDOF_STOP : Z
}.

Definition default_config (ndof_stop : Z) : Config :=
  mkConfig 2 2 (dlit (5 # 100)) (dlit 2) 1 3 (dlit (3 # 10)) (dlit 1) ndof_stop.

(** The variables of [main] that live across adaptivity and time steps; the
    [rk_] fields are the space, time and time step set on [runge_kutta].
    The counters [ts] and [as] are C [int]s; their overflow is undefined,
    and the model follows them as integers. *)
Record State : Type := mkState {
  space : Space Mesh;
  basemesh : Mesh;
  ndof_coarse : Z;
  sln_time_prev : Sln;
  sln_time_new : Sln;
  rk_space : Space Mesh;
  rk_time : double;
  rk_time_step : double;
  current_time : double;
  ts : Z;
  as_ : Z;
  done : bool;
  trace : list Event
}.

Definition set_space v (s : State) : State :=
  mkState v (basemesh s) (ndof_coarse s) (sln_time_prev s) (sln_time_new s)
    (rk_space s) (rk_time s) (rk_time_step s) (current_time s) (ts s) (as_ s) (done s) (trace s).
Definition set_ndof_coarse v (s : State) : State :=
  mkState (space s) (basemesh s) v (sln_time_prev s) (sln_time_new s)
    (rk_space s) (rk_time s) (rk_time_step s) (current_time s) (ts s) (as_ s) (done s) (trace s).
Definition set_sln_time_prev v (s : State) : State :=
  mkState (space s) (basemesh s) (ndof_coarse s) v (sln_time_new s)
    (rk_space s) (rk_time s) (rk_time_step s) (current_time s) (ts s) (as_ s) (done s) (trace s).
Definition set_sln_time_new v (s : State) : State :=
  mkState (space s) (basemesh s) (ndof_coarse s) (sln_time_prev s) v
    (rk_space s) (rk_time s) (rk_time_step s) (current_time s) (ts s) (as_ s) (done s) (trace s).
Definition set_rk (sp : Space Mesh) (t dt : double) (s : State) : State :=
  mkState (space s) (basemesh s) (ndof_coarse s) (sln_time_prev s) (sln_time_new s)
    sp t dt (current_time s) (ts s) (as_ s) (done s) (trace s).
Definition set_current_time v (s : State) : State :=
  mkState (space s) (basemesh s) (ndof_coarse s) (sln_time_prev s) (sln_time_new s)
    (rk_space s) (rk_time s) (rk_time_step s) v (ts s) (as_ s) (done s) (trace s).
Definition set_ts v (s : State) : State :=
  mkState (space s) (basemesh s) (ndof_coarse s) (sln_time_prev s) (sln_time_new s)
    (rk_space s) (rk_time s) (rk_time_step s) (current_time s) v (as_ s) (done s) (trace s).
Definition set_as v (s : State) : State :=
  mkState (space s) (basemesh s) (ndof_coarse s) (sln_time_prev s) (sln_time_new s)
    (rk_space s) (rk_time s) (rk_time_step s) (current_time s) (ts s) v (done s) (trace s).
Definition set_done v (s : State) : State :=
  mkState (space s) (basemesh s) (ndof_coarse s) (sln_time_prev s) (sln_time_new s)
    (rk_space s) (rk_time s) (rk_time_step s) (current_time s) (ts s) (as_ s) v (trace s).
Definition emit_ev (e : Event) (s : State) : State :=
  mkState (space s) (basemesh s) (ndof_coarse s) (sln_time_prev s) (sln_time_new s)
    (rk_space s) (rk_time s) (rk_time_step s) (current_time s) (ts s) (as_ s) (done s)
    (trace s ++ [e]).

Definition emit (e : Event) : M State unit := modify (emit_ev e).
Definition info (m : LogMsg) : M State unit := emit (EvInfo m).

Local Open Scope drv_scope.

Variable cfg : Config.

(** The three derefinement policies of the [switch (UNREF_METHOD)]; any
    other value falls through the switch. *)
Definition derefine (method : Z) (bm : Mesh) (sp : Space Mesh) : Space Mesh :=
  if method =? 1 then
    set_uniform_order (P_INIT cfg) (set_mesh bm sp)
  else if method =? 2 then
    set_uniform_order (P_INIT cfg) (set_mesh (unrefine_all_elements (sp_mesh sp)) sp)
  else if method =? 3 then
    adjust_element_order (-1) (-1) (P_INIT cfg) (P_INIT cfg)
      (set_mesh (unrefine_all_elements (sp_mesh sp)) sp)
  else sp.

(** The test [ts > 1 && ts % UNREF_FREQ == 0]; C++ [%] truncates. *)
Definition derefinement_due (t : Z) : bool :=
  (1 <? t) && (Z.rem t (UNREF_FREQ cfg) =? 0).

(** Lines 140-167 of [main]: periodic global derefinement. *)
Definition periodic_derefinement : M State unit :=
  let* t := gets ts in
  if derefinement_due t then
    info MsgGlobalDerefinement >>
    let* sp := gets space in
    let* bm := gets basemesh in
    let sp' := derefine (UNREF_METHOD cfg) bm sp in
    (* Important. Since the space was changed, we need to re-assign DOFs. *)
    let sp'' := assign_dofs sp' in
    modify (set_space sp'') >>
    emit (EvDerefine (UNREF_METHOD cfg) sp'') >>
    try_catch (modify (set_ndof_coarse (get_num_dofs sp''))) (fun e => emit (EvPrintMsg e))
  else ret tt.

(** [runge_kutta.rk_time_step_newton(sln_time_prev, sln_time_new)]: writes
    the output mesh function and throws if Newton did not converge. *)
Definition rk_time_step_newton : M State unit :=
  let* rs := gets rk_space in
  let* t := gets rk_time in
  let* dt := gets rk_time_step in
  let* prev := gets sln_time_prev in
  let* new := gets sln_time_new in
  emit (EvRkStep rs t dt prev) >>
  let '(new', r) := lib_rk_time_step rs t dt prev new in
  modify (set_sln_time_new new') >>
  match r with
  | Some e => throw e
  | None => ret tt
  end.

(** [adaptivity.adapt(&selector)]: refines the working space in place.
    Inside the loop [adaptivity] names the object of the step, created by
    [new Adapt(space)], on which the errors were calculated. *)
Definition adapt (adaptivity : Adapt) : M State bool :=
  let* sp := gets space in
  let '(sp', d) := lib_adapt sp (ad_errors adaptivity) in
  modify (set_space sp') >>
  emit (EvAdapt sp sp' d) >>
  ret d.

(** Lines 174-210 of [main]: reference space, one Runge-Kutta step,
    projection and error estimate.  Returns the adaptivity object of the
    step and [err_est_rel_total]. *)
Definition estimate : M State (Adapt * double) :=
  let* t := gets ts in
  let* a := gets as_ in
  info (MsgTimeStep t a) >>
  (* Construct globally refined reference mesh and setup reference space. *)
  let* sp := gets space in
  let ref_mesh := create_ref_mesh (sp_mesh sp) in
  let ref_space := create_ref_space sp ref_mesh in
  emit (EvRefSpace sp ref_space) >>
  let ndof_ref := get_num_dofs ref_space in
  (* Perform one Runge-Kutta time step according to the selected Butcher's table. *)
  try_catch
    (let* now := gets current_time in
     modify (set_rk ref_space now (time_step cfg)) >>
     rk_time_step_newton)
    (fun e => emit (EvPrintMsg e)) >>
  (* Project the fine mesh solution onto the coarse mesh. *)
  info MsgProjecting >>
  let* new := gets sln_time_new in
  emit (EvProject sp new) >>
  let sln_coarse := project_global sp new in
  (* Calculate element errors and total error estimate. *)
  info MsgCalculating >>
  let adaptivity := new_Adapt sp in
  emit (EvCalcErr sp sln_coarse new) >>
  let '(est, adaptivity) := calc_err_est adaptivity sln_coarse new in
  let err_est_rel_total := dmul est (dlit 100) in
  (* Report results. *)
  info (MsgReport (get_num_dofs sp) (get_num_dofs ref_space) err_est_rel_total) >>
  ret (adaptivity, err_est_rel_total).

(** Lines 212-234 of [main]. *)
Definition decide (adaptivity : Adapt) (err_est_rel_total : double) : M State unit :=
  (* If err_est too large, adapt the mesh. *)
  (if dlt err_est_rel_total (ERR_STOP cfg) then modify (set_done true)
   else
     info MsgAdapting >>
     let* d := adapt adaptivity in
     modify (set_done d) >>
     let* sp := gets space in
     if NDOF_STOP cfg <=? get_num_dofs sp then modify (set_done true)
     else
       (* Increase the counter of performed adaptivity steps. *)
       modify (fun st => set_as (as_ st + 1) st)) >>
  (* Visualize the solution and mesh. *)
  emit (EvShow "Solution") >>
  emit (EvShow "Mesh").

(** The body of the spatial adaptivity loop. *)
Definition adapt_step : M State unit :=
  let* (adaptivity, err_est_rel_total) := estimate in
  decide adaptivity err_est_rel_total.

(** Lines 169-239 of [main]: [bool done = false; int as = 1; do { ... }
    while (done == false);] *)
Definition spatial_adaptivity_loop (fuel : nat) : M State unit :=
  modify (set_done false) >>
  modify (set_as 1) >>
  do_while fuel adapt_step (fun st => negb (done st)).

(** Lines 241-245 of [main]. *)
Definition advance : M State unit :=
  let* new := gets sln_time_new in
  modify (set_sln_time_prev new) >>
  emit (EvCopyPrev new) >>
  (* Increase current time and counter of time steps. *)
  modify (fun st => set_current_time (dadd (current_time st) (time_step cfg)) st) >>
  modify (fun st => set_ts (ts st + 1) st).

(** The body of the time stepping loop. *)
Definition time_step_body (fuel : nat) : M State unit :=
  periodic_derefinement >>
  spatial_adaptivity_loop fuel >>
  advance.

(** [do { ... } while (current_time < T_FINAL);] *)
Definition time_stepping_loop (fuel_ts fuel_as : nat) : M State unit :=
  do_while fuel_ts (time_step_body fuel_as)
    (fun st => dlt (current_time st) (T_FINAL cfg)).

(** Lines 95-137 of [main]: the state in which the time stepping loop is
    entered, for the mesh read from the mesh file and the initial
    condition. *)
Definition init_state (mesh0 : Mesh) (initial_condition : Sln) : State :=
  let bm := iterate (INIT_REF_NUM cfg) refine_all_elements mesh0 in
  let sp := new_space bm (P_INIT cfg) in
  mkState sp bm (get_num_dofs sp) initial_condition empty_sln
    sp (dlit 0) (time_step cfg) (dlit 0) 1 1 false
    [EvShow "Initial condition"; EvShow "Initial mesh"].

Definition main (fuel_ts fuel_as : nat) (mesh0 : Mesh) (initial_condition : Sln)
  : Outcome State unit :=
  time_stepping_loop fuel_ts fuel_as (init_state mesh0 initial_condition).

End Driver.
End Transient.

(** ** Vocabulary of the properties *)

Section Vocabulary.
Context `{H2D : Hermes2D}.

(** The Candidate Selector reports "nothing refined" unless it has added at
    least one degree of freedom to the working space. *)
Definition adapt_makes_progress : Prop :=
  forall sp errs sp',
    lib_adapt sp errs = (sp', false) -> get_num_dofs sp < get_num_dofs sp'.

(** The reference space built from a working space. *)
Definition ref_space_of (sp : Space Mesh) : Space Mesh :=
  create_ref_space sp (create_ref_mesh (sp_mesh sp)).

(** The all-zeros coefficient vector for a space. *)
Definition zero_vector (sp : Space Mesh) : list Scalar :=
  replicate (Z.to_nat (get_num_dofs sp)) scalar_zero.

(** Every Newton solve in a trace was started from the zero vector of the
    space it was run on. *)
Definition zero_initial_guess (e : Event) : Prop :=
  match e with
  | EvNewtonSolve rs coeff_vec => coeff_vec = zero_vector rs
  | _ => True
  end.

Definition is_ref_build (e : Event) : bool :=
  match e with EvRefSpace _ _ => true | _ => false end.
Definition is_newton_solve (e : Event) : bool :=
  match e with EvNewtonSolve _ _ => true | _ => false end.
Definition is_copy_prev (e : Event) : bool :=
  match e with EvCopyPrev _ => true | _ => false end.
Definition is_derefine (e : Event) : bool :=
  match e with EvDerefine _ _ => true | _ => false end.

(** Number of events of a kind in a trace. *)
Definition count (p : Event -> bool) (tr : list Event) : nat :=
  length (List.filter p tr).



(** A Runge-Kutta step that was given [prev] as the previous time level. *)
Definition steps_from (prev : Sln) (e : Event) : Prop :=
  match e with
  | EvRkStep _ _ _ p => p = prev
  | _ => True
  end.

(** Output that carries the exact error: the saved exact-error graph. *)
Definition is_exact_output (e : Event) : bool :=
  match e with
  | EvSaveGraph file _ => String.eqb file "conv_dof_exact.dat"
  | _ => false
  end.

(** The components of an element order are at least [hmin] and [vmin]. *)
Definition bounded_order (hmin vmin : Z) (o : ElemOrder) : Prop :=
  hmin <= ord_h o /\ vmin <= ord_v o.

(** Both components of an element order are at least [p]. *)
Definition order_at_least (p : Z) (o : ElemOrder) : Prop := bounded_order p p o.

End Vocabulary.

Module HcurlView.
Section View.
Context `{H2D : Hermes2D}.
Import Hcurl.

(** What the providers return in the step that starts in state [s]: the
    solver's answer on the reference space, the reference and the coarse
    solution, the error estimate in percent and the per-element errors. *)
Definition solve_result (s : State) : list Scalar * option Exn :=
  lib_newton_solve (ref_space_of (space s)) (zero_vector (ref_space_of (space s)))
    (newton_sln_vector s).
Definition ref_sln_of (s : State) : Sln :=
  vector_to_solution (fst (solve_result s)) (ref_space_of (space s)).
Definition sln_of (s : State) : Sln :=
  project_global (space s) (ref_sln_of s).
Definition err_est_of (s : State) : double :=
  dmul (fst (lib_calc_err (space s) (sln_of s) (ref_sln_of s))) (dlit 100).
Definition elem_errors_of (s : State) : ElemErrors :=
  snd (lib_calc_err (space s) (sln_of s) (ref_sln_of s)).
Definition err_exact_of (s : State) : double :=
  dmul (fst (lib_calc_err (space s) (sln_of s) (sln_exact s))) (dlit 100).

(** The library calls and output of lines 118-172 in the step that starts
    in state [s]. *)
Definition estimate_events (cfg : Config) (s : State) : list Event :=
  let sp := space s in
  let rs := ref_space_of sp in
  [EvRefSpace sp rs; EvNewtonSolve rs (zero_vector rs)]
  ++ match snd (solve_result s) with Some e => [EvPrintMsg e] | None => [] end
  ++ [EvProject sp (ref_sln_of s)]
  ++ (if HERMES_VISUALIZATION cfg
      then [EvShow "Solution (magnitude)"; EvShow "Polynomial orders";
            EvSaveVtk "sln.vtk"; EvSaveVtk "mesh.vtk"]
      else [])
  ++ [EvCalcErr sp (sln_of s) (ref_sln_of s);
      EvInfo (MsgErrorEstimate (err_est_of s));
      EvCalcErrExact sp (sln_of s);
      EvSaveGraph "conv_dof_est.dat"
        (graph_dof_est s ++ [(get_num_dofs sp, err_est_of s)]);
      EvSaveGraph "conv_dof_exact.dat"
        (graph_dof_exact s ++ [(get_num_dofs sp, err_exact_of s)])].

(** What a reader of the estimated-error record sees of the last step:
    whether its error estimate was below the tolerance. *)
Definition recorded_converged (cfg : Config) (g : SimpleGraph) : bool :=
  match last g with
  | Some (_, err) => dlt err (ERR_STOP cfg)
  | None => false
  end.

(** The part of the state that does not hold the exact solution, the exact
    error graph or output derived from them. *)
Record Control : Type := mkControl {
  c_space : Space Mesh;
  c_sln : Sln;
  c_ref_sln : Sln;
  c_newton_space : Space Mesh;
  c_newton_sln_vector : list Scalar;
  c_graph_dof_est : SimpleGraph;
  c_graph_cpu_est : SimpleGraph;
  c_graph_cpu_exact : SimpleGraph;
  c_as : Z;
  c_done : bool;
  c_trace : list Event
}.

Definition control (s : State) : Control :=
  mkControl (space s) (sln s) (ref_sln s) (newton_space s) (newton_sln_vector s)
    (graph_dof_est s) (graph_cpu_est s) (graph_cpu_exact s) (as_ s) (done s)
    (List.filter (fun e => negb (is_exact_output e)) (trace s)).

Definition control_outcome (o : Outcome State unit) : Outcome Control unit :=
  match o with
  | Ret a s => Ret a (control s)
  | Throw e s => Throw e (control s)
  | OutOfFuel => OutOfFuel
  end.

End View.
End HcurlView.

Module TransientView.
Section View.
Context `{H2D : Hermes2D}.
Import Transient.

(** What the providers return in the adaptivity step that starts in state
    [s]: the answer of the Runge-Kutta step on the reference space, the new
    time level and coarse solutions, the error estimate in percent and the
    per-element errors. *)
Definition rk_result (cfg : Config) (s : State) : Sln * option Exn :=
  lib_rk_time_step (ref_space_of (space s)) (current_time s) (time_step cfg)
    (sln_time_prev s) (sln_time_new s).
Definition new_sln_of (cfg : Config) (s : State) : Sln := fst (rk_result cfg s).
Definition coarse_of (cfg : Config) (s : State) : Sln :=
  project_global (space s) (new_sln_of cfg s).
Definition err_est_of (cfg : Config) (s : State) : double :=
  dmul (fst (lib_calc_err (space s) (coarse_of cfg s) (new_sln_of cfg s))) (dlit 100).
Definition elem_errors_of (cfg : Config) (s : State) : ElemErrors :=
  snd (lib_calc_err (space s) (coarse_of cfg s) (new_sln_of cfg s)).

(** The library calls and output of lines 174-210 in the step that starts
    in state [s]. *)
Definition estimate_events (cfg : Config) (s : State) : list Event :=
  let sp := space s in
  let rs := ref_space_of sp in
  [EvInfo (MsgTimeStep (ts s) (as_ s)); EvRefSpace sp rs;
   EvRkStep rs (current_time s) (time_step cfg) (sln_time_prev s)]
  ++ match snd (rk_result cfg s) with Some e => [EvPrintMsg e] | None => [] end
  ++ [EvInfo MsgProjecting; EvProject sp (new_sln_of cfg s);
      EvInfo MsgCalculating; EvCalcErr sp (coarse_of cfg s) (new_sln_of cfg s);
      EvInfo (MsgReport (get_num_dofs sp) (get_num_dofs rs) (err_est_of cfg s))].


(** The state in which the adaptivity loop of a time step is entered when
    the derefinement block has run. *)
Definition derefined (cfg : Config) (s : State) : State :=
  let sp := assign_dofs (derefine cfg (UNREF_METHOD cfg) (basemesh s) (space s)) in
  set_ndof_coarse (get_num_dofs sp)
    (emit_ev (EvDerefine (UNREF_METHOD cfg) sp)
       (set_space sp (emit_ev (EvInfo MsgGlobalDerefinement) s))).

End View.
End TransientView.

(** ** A small instance of the library

    Meshes are refinement levels, a mesh of level [m] has elements
    [0 .. m]; solutions are numbers, and the error between two of them
    is a base error plus their distance.  The behaviour of the solver and
    of the candidate selector and the base error are chosen by [Knobs]. *)

Module Toy.

Record Knobs : Type := mkKnobs {
  solver_fails : bool;
  nothing_to_refine : bool;
  rel_err : Q
}.

Definition toy_count_dofs (m : nat) (ed : gmap nat ElemOrder) : Z :=
  fold_left (fun acc id => acc + (ord_h (default order_unset (ed !! id)) + 1))
            (seq 0 (S m)) 0.

Definition not_converged : Exn := HermesException "Newton's iteration did not converge".

Definition lib (k : Knobs) : Hermes2D := {|
  double := Q;
  dlt := fun a b => negb (Qle_bool b a);
  dadd := Qplus;
  dmul := Qmult;
  dlit := fun q => q;
  Scalar := Z;
  scalar_zero := 0;
  Mesh := nat;
  Sln := Z;
  ElemErrors := Z;
  empty_sln := 0;
  active_elements := fun m => seq 0 (S m);
  refine_all_elements := S;
  unrefine_all_elements := Nat.pred;
  create_ref_mesh := S;
  create_ref_space := fun sp rm => mkSpace rm (sp_edata sp) (2 * sp_ndof sp + 1);
  count_dofs := toy_count_dofs;
  lib_newton_solve := fun rs init old =>
    (map (Z.add 1) init, if solver_fails k then Some not_converged else None);
  lib_rk_time_step := fun rs t dt prev new =>
    if solver_fails k then (new, Some not_converged) else (prev + 1, None);
  vector_to_solution := fun v sp => fold_left Z.add v 0;
  project_global := fun sp s => s;
  lib_calc_err := fun sp s r => (Qplus (rel_err k) (inject_Z (Z.abs (r - s))), 0);
  lib_adapt := fun sp errs =>
    if nothing_to_refine k then (sp, true)
    else (mkSpace (S (sp_mesh sp)) (sp_edata sp) (sp_ndof sp + 4), false)
|}.

(** Error estimate 5 %, solver converges, selector refines. *)
Definition refining : Knobs := mkKnobs false false (5 # 100).
(** Error estimate 5 %, solver fails, selector refines. *)
Definition failing : Knobs := mkKnobs true false (5 # 100).
(** Error estimate 5 %, selector finds nothing to refine. *)
Definition stagnating : Knobs := mkKnobs false true (5 # 100).
(** Error estimate 0.5 %: below the tolerance. *)
Definition accurate : Knobs := mkKnobs false false (5 # 1000).

End Toy.

(** Runs of the drivers on the small instance. *)
Module Runs.

(** The static driver with ceiling 14: two steps, the second one reaches
    the ceiling with the error estimate still at 5 %. *)
Definition hcurl_cfg : @Hcurl.Config (Toy.lib Toy.refining) :=
  @Hcurl.default_config (Toy.lib Toy.refining) 14.
Definition hcurl_start : @Hcurl.State (Toy.lib Toy.refining) :=
  @Hcurl.init_state (Toy.lib Toy.refining) hcurl_cfg 0%nat 0.
Definition hcurl_final : @Hcurl.State (Toy.lib Toy.refining) :=
  Eval vm_compute in
    match @Hcurl.adaptivity_loop (Toy.lib Toy.refining) hcurl_cfg 5 hcurl_start with
    | Ret _ s => s
    | _ => hcurl_start
    end.

(** The same start with another exact solution. *)
Definition hcurl_start' : @Hcurl.State (Toy.lib Toy.refining) :=
  @Hcurl.init_state (Toy.lib Toy.refining) hcurl_cfg 0%nat 7.

(** The static driver with a solver that fails in every step. *)
Definition failing_cfg : @Hcurl.Config (Toy.lib Toy.failing) :=
  @Hcurl.default_config (Toy.lib Toy.failing) 14.
Definition failing_start : @Hcurl.State (Toy.lib Toy.failing) :=
  @Hcurl.init_state (Toy.lib Toy.failing) failing_cfg 0%nat 0.
Definition failing_vector : list Z :=
  Eval vm_compute in fst (@HcurlView.solve_result (Toy.lib Toy.failing) failing_start).

(** The static driver with a Candidate Selector that finds nothing to
    refine. *)
Definition stagnating_cfg : @Hcurl.Config (Toy.lib Toy.stagnating) :=
  @Hcurl.default_config (Toy.lib Toy.stagnating) 14.
Definition stagnating_start : @Hcurl.State (Toy.lib Toy.stagnating) :=
  @Hcurl.init_state (Toy.lib Toy.stagnating) stagnating_cfg 0%nat 0.

(** The static driver with an error estimate of 0.5 %: one step, stopped
    by the tolerance. *)
Definition accurate_cfg : @Hcurl.Config (Toy.lib Toy.accurate) :=
  @Hcurl.default_config (Toy.lib Toy.accurate) 14.
Definition accurate_start : @Hcurl.State (Toy.lib Toy.accurate) :=
  @Hcurl.init_state (Toy.lib Toy.accurate) accurate_cfg 0%nat 0.
Definition accurate_final : @Hcurl.State (Toy.lib Toy.accurate) :=
  Eval vm_compute in
    match @Hcurl.adaptivity_loop (Toy.lib Toy.accurate) accurate_cfg 5 accurate_start with
    | Ret _ s => s
    | _ => accurate_start
    end.

(** The transient driver: its first time step, and the state after it. *)
Definition transient_cfg : @Transient.Config (Toy.lib Toy.refining) :=
  @Transient.default_config (Toy.lib Toy.refining) 14.
Definition transient_start : @Transient.State (Toy.lib Toy.refining) :=
  @Transient.init_state (Toy.lib Toy.refining) transient_cfg 0%nat 0.
Definition transient_second : @Transient.State (Toy.lib Toy.refining) :=
  Eval vm_compute in
    match @Transient.time_step_body (Toy.lib Toy.refining) transient_cfg 5 transient_start with
    | Ret _ s => s
    | _ => transient_start
    end.

(** A space on the mesh of level 2 whose three elements have orders
    (5,4), (2,2) and none. *)
Definition worn_space : Space nat :=
  mkSpace 2%nat (<[0%nat := mkOrder 5 4]> (<[1%nat := mkOrder 2 2]> ∅)) 12.

End Runs.

(** ** Further vocabulary *)

Section MoreVocabulary.
Context `{H2D : Hermes2D}.

Definition is_adapt (e : Event) : bool :=
  match e with EvAdapt _ _ _ => true | _ => false end.

(** A call of the Candidate Selector that refined something. *)
Definition is_refinement (e : Event) : bool :=
  match e with EvAdapt _ _ nothing_refined => negb nothing_refined | _ => false end.

(** The DOF counts of the working spaces from which the reference spaces of
    a trace were built, in order. *)
Definition coarse_dofs (tr : list Event) : list Z :=
  flat_map (fun e => match e with
                     | EvRefSpace coarse _ => [get_num_dofs coarse]
                     | _ => []
                     end) tr.

(** The "Time step %d, adaptivity step %d:" lines of a log, in order. *)
Definition step_lines (tr : list Event) : list (Z * Z) :=
  flat_map (fun e => match e with
                     | EvInfo (MsgTimeStep t a) => [(t, a)]
                     | _ => []
                     end) tr.

(** A Runge-Kutta step from time [t] with step size [dt]. *)
Definition rk_at (t dt : double) (e : Event) : Prop :=
  match e with
  | EvRkStep _ t' dt' _ => t' = t /\ dt' = dt
  | _ => True
  end.

(** The Candidate Selector never returns a space with fewer degrees of
    freedom than it was given. *)
Definition adapt_never_coarsens : Prop :=
  forall sp errs, get_num_dofs sp <= get_num_dofs (fst (lib_adapt sp errs)).

(** The number of degrees of freedom depends on the orders of the active
    elements of the mesh only. *)
Definition count_dofs_local : Prop :=
  forall m (ed1 ed2 : gmap nat ElemOrder),
    (forall id, In id (active_elements m) -> ed1 !! id = ed2 !! id) ->
    count_dofs m ed1 = count_dofs m ed2.

(** A Runge-Kutta solver that fails on every call and leaves its output
    mesh function as it was. *)
Definition rk_always_fails : Prop :=
  forall rs t dt prev new, exists e, lib_rk_time_step rs t dt prev new = (new, Some e).

End MoreVocabulary.

(** ** What a run leaves behind *)

Section StopVocabulary.
Context `{H2D : Hermes2D}.





End StopVocabulary.

(** ** A Candidate Selector that makes no progress

    The small instance with error estimate 5 %, whose Candidate Selector
    reports a refinement and hands back the space it was given: the number
    of degrees of freedom stays as it is. *)

Module Idle.

Definition lib : Hermes2D := {|
  double := Q;
  dlt := fun a b => negb (Qle_bool b a);
  dadd := Qplus;
  dmul := Qmult;
  dlit := fun q => q;
  Scalar := Z;
  scalar_zero := 0;
  Mesh := nat;
  Sln := Z;
  ElemErrors := Z;
  empty_sln := 0;
  active_elements := fun m => seq 0 (S m);
  refine_all_elements := S;
  unrefine_all_elements := Nat.pred;
  create_ref_mesh := S;
  create_ref_space := fun sp rm => mkSpace rm (sp_edata sp) (2 * sp_ndof sp + 1);
  count_dofs := Toy.toy_count_dofs;
  lib_newton_solve := fun rs init old => (map (Z.add 1) init, None);
  lib_rk_time_step := fun rs t dt prev new => (prev + 1, None);
  vector_to_solution := fun v sp => fold_left Z.add v 0;
  project_global := fun sp s => s;
  lib_calc_err := fun sp s r => (Qplus (5 # 100) (inject_Z (Z.abs (r - s))), 0);
  lib_adapt := fun sp errs => (sp, false)
|}.

(** The static driver with ceiling 30, started on 6 degrees of freedom. *)
Definition cfg : @Hcurl.Config lib := @Hcurl.default_config lib 30.
Definition start : @Hcurl.State lib := @Hcurl.init_state lib cfg 0%nat 0.

End Idle.

(** Further runs on the small instance. *)
Module MoreRuns.

(** The static and the transient driver started with the ceiling at the
    DOF count of the initial space. *)
Definition low_cfg : @Hcurl.Config (Toy.lib Toy.refining) :=
  @Hcurl.default_config (Toy.lib Toy.refining) 6.
Definition low_start : @Hcurl.State (Toy.lib Toy.refining) :=
  @Hcurl.init_state (Toy.lib Toy.refining) low_cfg 0%nat 0.

(** The transient driver with final time 0.15: three time steps. *)
Definition short_cfg : @Transient.Config (Toy.lib Toy.refining) :=
  @Transient.mkConfig (Toy.lib Toy.refining) 2 2 (5 # 100) (15 # 100) 1 3 (3 # 10) (1 # 1) 14.
Definition short_start : @Transient.State (Toy.lib Toy.refining) :=
  @Transient.init_state (Toy.lib Toy.refining) short_cfg 0%nat 0.
Definition short_final : @Transient.State (Toy.lib Toy.refining) :=
  Eval vm_compute in
    match @Transient.time_stepping_loop (Toy.lib Toy.refining) short_cfg 10 5 short_start with
    | Ret _ s => s
    | _ => short_start
    end.

(** The state in which the spatial adaptivity loop of the first time step
    of [Runs.transient_cfg] returns. *)
Definition transient_loop_end : @Transient.State (Toy.lib Toy.refining) :=
  Eval vm_compute in
    match @Transient.spatial_adaptivity_loop (Toy.lib Toy.refining) Runs.transient_cfg 5
            Runs.transient_start with
    | Ret _ s => s
    | _ => Runs.transient_start
    end.

(** The transient driver with a solver that fails in every step: its first
    time step, and the state after it. *)
Definition stalled_cfg : @Transient.Config (Toy.lib Toy.failing) :=
  @Transient.default_config (Toy.lib Toy.failing) 14.
Definition stalled_start : @Transient.State (Toy.lib Toy.failing) :=
  @Transient.init_state (Toy.lib Toy.failing) stalled_cfg 0%nat 7.
Definition stalled_second : @Transient.State (Toy.lib Toy.failing) :=
  Eval vm_compute in
    match @Transient.time_step_body (Toy.lib Toy.failing) stalled_cfg 5 stalled_start with
    | Ret _ s => s
    | _ => stalled_start
    end.

(** The transient driver with derefinement policy 1. *)
Definition reset_cfg : @Transient.Config (Toy.lib Toy.refining) :=
  @Transient.mkConfig (Toy.lib Toy.refining) 2 2 (5 # 100) (15 # 100) 1 1 (3 # 10) (1 # 1) 14.





End MoreRuns.

(** * Properties *)

(** Closed equations between concrete runs are checked by evaluation. *)
Ltac evaluated :=
  match goal with
  | |- @eq ?T _ ?r => vm_cast_no_check (@eq_refl T r)
  end.

(** ** Loops *)

Section Loops.
Context {St : Type}.
Implicit Types (body : M St unit) (cond : St -> bool).

Lemma do_while_exit n body cond s s1 :
  body s = Ret tt s1 -> cond s1 = false ->
  do_while (S n) body cond s = Ret tt s1.
Proof. intros Hb Hc. cbn. unfold bind. now rewrite Hb, Hc. Qed.

Lemma do_while_again n body cond s s1 :
  body s = Ret tt s1 -> cond s1 = true ->
  do_while (S n) body cond s = do_while n body cond s1.
Proof. intros Hb Hc. cbn. unfold bind. now rewrite Hb, Hc. Qed.

Lemma do_while_mono n body cond s s' :
  do_while n body cond s = Ret tt s' ->
  forall m, (n <= m)%nat -> do_while m body cond s = Ret tt s'.
Proof.
  revert s. induction n as [|n IH]; intros s Hn m Hm; [discriminate|].
  destruct m as [|m]; [lia|].
  cbn in *. unfold bind in *.
  destruct (body s) as [[] s1| |]; try discriminate.
  destruct (cond s1); [|exact Hn].
  apply IH; [exact Hn|lia].
Qed.

(** A loop that returns has run its body a last time, from some state, and
    left its condition false. *)
Lemma do_while_last n body cond s s' :
  do_while n body cond s = Ret tt s' ->
  exists s0, body s0 = Ret tt s' /\ cond s' = false.
Proof.
  revert s. induction n as [|n IH]; intros s Hn; [discriminate|].
  cbn in Hn. unfold bind in Hn.
  destruct (body s) as [[] s1| |] eqn:Hb; try discriminate.
  destruct (cond s1) eqn:Hc; [eauto|].
  inversion Hn; subst; eauto.
Qed.

(** An invariant of the body is an invariant of the loop. *)
Lemma do_while_invariant (P : St -> Prop) n body cond :
  (forall s s1, P s -> body s = Ret tt s1 -> P s1) ->
  forall s s', P s -> do_while n body cond s = Ret tt s' -> P s'.
Proof.
  intros Hstep. induction n as [|n IH]; intros s s' HP Hn; [discriminate|].
  cbn in Hn. unfold bind in Hn.
  destruct (body s) as [[] s1| |] eqn:Hb; try discriminate.
  destruct (cond s1).
  - apply (IH s1 s'); [eapply Hstep; eauto | exact Hn].
  - inversion Hn; subst. eauto.
Qed.

(** A body that never throws makes a loop that never throws. *)
Lemma do_while_no_throw n body cond :
  (forall s e s', body s <> Throw e s') ->
  forall s e s', do_while n body cond s <> Throw e s'.
Proof.
  intros Hbody. induction n as [|n IH]; intros s e s'; [discriminate|].
  cbn. unfold bind. specialize (Hbody s).
  destruct (body s) as [[] s1|e1 s1|]; [|now destruct (Hbody e1 s1)|discriminate].
  destruct (cond s1); [apply IH|discriminate].
Qed.

(** A loop whose body either falsifies the condition or decreases a
    measure returns, after at most one more step than the measure. *)
Lemma do_while_terminates (mu : St -> nat) body cond :
  (forall s, exists s1,
      body s = Ret tt s1 /\ (cond s1 = false \/ (mu s1 < mu s)%nat)) ->
  forall s, exists n s',
      (n <= S (mu s))%nat /\ do_while n body cond s = Ret tt s' /\ cond s' = false.
Proof.
  intros Hbody s.
  remember (mu s) as k eqn:Hk.
  assert (Hle : (mu s <= k)%nat) by lia. clear Hk.
  revert s Hle. induction k as [|k IH]; intros s Hle.
  - destruct (Hbody s) as (s1 & Hb & [Hc|Hlt]); [|lia].
    exists 1%nat, s1. split; [lia|]. split; [|exact Hc].
    now apply do_while_exit.
  - destruct (Hbody s) as (s1 & Hb & [Hc|Hlt]).
    + exists 1%nat, s1. split; [lia|]. split; [|exact Hc].
      now apply do_while_exit.
    + destruct (cond s1) eqn:Hc.
      * destruct (IH s1) as (n & s' & Hn & Hrun & Hc'); [lia|].
        exists (S n), s'. split; [lia|]. split; [|exact Hc'].
        rewrite (do_while_again n body cond s s1 Hb Hc). exact Hrun.
      * exists 1%nat, s1. split; [lia|]. split; [|exact Hc].
        now apply do_while_exit.
Qed.

End Loops.

(** ** The static driver, step by step *)

(** Symbolic execution of a step: unfold the monad and split on the
    providers' answers and on the tests. *)
Ltac hcurl_run :=
  unfold Hcurl.adapt_step, Hcurl.estimate, Hcurl.decide, Hcurl.adapt, Hcurl.newton_solve,
    Hcurl.print_msg, Hcurl.emit, Hcurl.info,
    calc_err_est, calc_err_exact, calc_err_internal, new_Adapt, add_values,
    zero_vector, ref_space_of, get_num_dofs,
    bind, try_catch, gets, modify, ret, throw; cbn;
  repeat (match goal with
    | |- context [lib_newton_solve ?a ?b ?c] =>
        destruct (lib_newton_solve a b c) as [? [?|]] eqn:?
    | |- context [lib_calc_err ?a ?b ?c] =>
        destruct (lib_calc_err a b c) as [? ?] eqn:?
    | |- context [lib_adapt ?a ?b] =>
        destruct (lib_adapt a b) as [? []] eqn:?
    | |- context [Hcurl.HERMES_VISUALIZATION ?c] =>
        destruct (Hcurl.HERMES_VISUALIZATION c)
    | |- context [dlt ?a ?b] => destruct (dlt a b) eqn:?
    | |- context [?a <=? ?b] => destruct (Z.leb_spec a b)
    end; simplify_eq; cbn).

Section HcurlFacts.
Context `{H2D : Hermes2D}.
Import Hcurl HcurlView.
Variable cfg : Config.

Ltac run := hcurl_run.

(** Lines 118-172 always complete, and leave the state described by the
    providers' answers. *)
Lemma estimate_spec st :
  exists st0,
    estimate cfg st
      = Ret (mkAdapt (space st) (Some (elem_errors_of st)), err_est_of st) st0
    /\ space st0 = space st
    /\ done st0 = done st
    /\ as_ st0 = as_ st
    /\ sln_exact st0 = sln_exact st
    /\ newton_space st0 = ref_space_of (space st)
    /\ newton_sln_vector st0 = fst (solve_result st)
    /\ ref_sln st0 = ref_sln_of st
    /\ sln st0 = sln_of st
    /\ graph_dof_est st0
       = graph_dof_est st ++ [(get_num_dofs (space st), err_est_of st)]
    /\ graph_dof_exact st0
       = graph_dof_exact st ++ [(get_num_dofs (space st), err_exact_of st)]
    /\ graph_cpu_est st0 = graph_cpu_est st
    /\ graph_cpu_exact st0 = graph_cpu_exact st
    /\ trace st0 = trace st ++ estimate_events cfg st.
Proof.
  unfold elem_errors_of, err_est_of, err_exact_of, estimate_events, sln_of, ref_sln_of,
    solve_result, ref_space_of, zero_vector, get_num_dofs, add_values.
  run; eexists; (split; [reflexivity|]); cbn;
    rewrite <- ?app_assoc; cbn; repeat split; try reflexivity;
    unfold err_est_of, err_exact_of, sln_of, ref_sln_of, solve_result, ref_space_of,
      zero_vector, get_num_dofs;
    repeat (match goal with H : _ = (_, _) |- _ => rewrite H; clear H end; cbn);
    reflexivity.
Qed.

(** Lines 174-183 always complete.  Below the tolerance nothing is
    refined; otherwise the Candidate Selector runs once; in both cases the
    ceiling test comes last. *)
Lemma decide_spec ad err st :
  exists st1,
    decide cfg ad err st = Ret tt st1
    /\ (sln st1 = sln st /\ ref_sln st1 = ref_sln st /\ sln_exact st1 = sln_exact st
        /\ newton_space st1 = newton_space st
        /\ newton_sln_vector st1 = newton_sln_vector st
        /\ graph_dof_est st1 = graph_dof_est st
        /\ graph_dof_exact st1 = graph_dof_exact st
        /\ graph_cpu_est st1 = graph_cpu_est st
        /\ graph_cpu_exact st1 = graph_cpu_exact st)
    /\ (dlt err (ERR_STOP cfg) = true ->
        space st1 = space st /\ trace st1 = trace st /\ as_ st1 = as_ st
        /\ done st1 = true)
    /\ (dlt err (ERR_STOP cfg) = false ->
        forall sp' d, lib_adapt (space st) (ad_errors ad) = (sp', d) ->
        space st1 = sp' /\ trace st1 = trace st ++ [EvAdapt (space st) sp' d]
        /\ as_ st1 = (if d then as_ st else as_ st + 1)
        /\ done st1 = d || (NDOF_STOP cfg <=? get_num_dofs sp'))
    /\ (NDOF_STOP cfg <= get_num_dofs (space st1) -> done st1 = true).
Proof.
  run; eexists; (split; [reflexivity|]); cbn;
    (split; [repeat split|]);
    (split; [intros ?|split; [intros ? sp' d' ?|intros ?]]);
    simplify_eq; cbn; repeat split; try reflexivity; try lia;
    try (symmetry; apply Z.leb_le; assumption);
    try (symmetry; apply Z.leb_gt; assumption).
Qed.

(** The body of the loop always completes. *)
Lemma adapt_step_ret st : exists st1, adapt_step cfg st = Ret tt st1.
Proof.
  unfold adapt_step, bind.
  destruct (estimate_spec st) as (st0 & -> & _).
  destruct (decide_spec (mkAdapt (space st) (Some (elem_errors_of st))) (err_est_of st) st0)
    as (st1 & -> & _).
  eauto.
Qed.

(** The body of the loop is its two halves, one after the other. *)
Lemma adapt_step_split st st1 :
  adapt_step cfg st = Ret tt st1 <->
  exists ad err st0,
    estimate cfg st = Ret (ad, err) st0 /\ decide cfg ad err st0 = Ret tt st1.
Proof.
  unfold adapt_step, bind. split.
  - destruct (estimate cfg st) as [[ad err] st0| |]; try discriminate. eauto.
  - intros (ad & err & st0 & -> & Hd). exact Hd.
Qed.

End HcurlFacts.

(** ** The transient driver, step by step *)

Section TransientFacts.
Context `{H2D : Hermes2D}.
Import Transient TransientView.
Variable cfg : Config.

Ltac run :=
  unfold adapt_step, estimate, decide, adapt, rk_time_step_newton, emit, info,
    calc_err_est, calc_err_internal, new_Adapt, ref_space_of, get_num_dofs,
    bind, try_catch, gets, modify, ret, throw; cbn;
  repeat (match goal with
    | |- context [lib_rk_time_step ?a ?b ?c ?d ?e] =>
        destruct (lib_rk_time_step a b c d e) as [? [?|]] eqn:?
    | |- context [lib_calc_err ?a ?b ?c] =>
        destruct (lib_calc_err a b c) as [? ?] eqn:?
    | |- context [lib_adapt ?a ?b] =>
        destruct (lib_adapt a b) as [? []] eqn:?
    | |- context [dlt ?a ?b] => destruct (dlt a b) eqn:?
    | |- context [?a <=? ?b] => destruct (Z.leb_spec a b)
    end; simplify_eq; cbn).

(** Lines 174-210 always complete, and leave the state described by the
    providers' answers. *)
Lemma t_estimate_spec st :
  exists st0,
    estimate cfg st
      = Ret (mkAdapt (space st) (Some (elem_errors_of cfg st)), err_est_of cfg st) st0
    /\ space st0 = space st
    /\ basemesh st0 = basemesh st
    /\ ndof_coarse st0 = ndof_coarse st
    /\ sln_time_prev st0 = sln_time_prev st
    /\ sln_time_new st0 = new_sln_of cfg st
    /\ current_time st0 = current_time st
    /\ ts st0 = ts st
    /\ as_ st0 = as_ st
    /\ done st0 = done st
    /\ trace st0 = trace st ++ estimate_events cfg st.
Proof.
  unfold elem_errors_of, err_est_of, estimate_events, coarse_of, new_sln_of, rk_result.
  run; eexists; (split; [reflexivity|]); cbn;
    rewrite <- ?app_assoc; cbn; repeat split; try reflexivity;
    unfold err_est_of, coarse_of, new_sln_of, rk_result, ref_space_of, get_num_dofs;
    repeat (match goal with H : _ = (_, _) |- _ => rewrite H; clear H end; cbn);
    reflexivity.
Qed.

(** Lines 212-234 always complete.  Below the tolerance nothing is
    refined; otherwise the Candidate Selector runs once and the ceiling
    test follows it. *)
Lemma t_decide_spec ad err st :
  exists st1,
    decide cfg ad err st = Ret tt st1
    /\ (basemesh st1 = basemesh st /\ ndof_coarse st1 = ndof_coarse st
        /\ sln_time_prev st1 = sln_time_prev st /\ sln_time_new st1 = sln_time_new st
        /\ current_time st1 = current_time st /\ ts st1 = ts st)
    /\ (dlt err (ERR_STOP cfg) = true ->
        space st1 = space st
        /\ trace st1 = trace st ++ [EvShow "Solution"; EvShow "Mesh"]
        /\ as_ st1 = as_ st /\ done st1 = true)
    /\ (dlt err (ERR_STOP cfg) = false ->
        forall sp' d, lib_adapt (space st) (ad_errors ad) = (sp', d) ->
        space st1 = sp'
        /\ trace st1 = trace st ++ [EvInfo MsgAdapting; EvAdapt (space st) sp' d;
                                    EvShow "Solution"; EvShow "Mesh"]
        /\ as_ st1 = (if NDOF_STOP cfg <=? get_num_dofs sp' then as_ st else as_ st + 1)
        /\ done st1 = d || (NDOF_STOP cfg <=? get_num_dofs sp'))
    /\ (NDOF_STOP cfg <= get_num_dofs (space st1) -> done st1 = true).
Proof.
  run; eexists; (split; [reflexivity|]); cbn;
    (split; [repeat split|]);
    (split; [intros ?|split; [intros ? sp' d' ?|intros ?]]);
    simplify_eq; cbn; rewrite <- ?app_assoc; cbn; repeat split; try reflexivity; try lia;
    unfold get_num_dofs;
    repeat match goal with
      | |- context [?a <=? ?b] => destruct (Z.leb_spec a b)
      end; try reflexivity; try lia.
Qed.

(** The body of the spatial adaptivity loop always completes. *)
Lemma t_adapt_step_ret st : exists st1, adapt_step cfg st = Ret tt st1.
Proof.
  unfold adapt_step, bind.
  destruct (t_estimate_spec st) as (st0 & -> & _).
  destruct (t_decide_spec (mkAdapt (space st) (Some (elem_errors_of cfg st)))
              (err_est_of cfg st) st0) as (st1 & -> & _).
  eauto.
Qed.

Lemma t_adapt_step_split st st1 :
  adapt_step cfg st = Ret tt st1 <->
  exists ad err st0,
    estimate cfg st = Ret (ad, err) st0 /\ decide cfg ad err st0 = Ret tt st1.
Proof.
  unfold adapt_step, bind. split.
  - destruct (estimate cfg st) as [[ad err] st0| |]; try discriminate. eauto.
  - intros (ad & err & st0 & -> & Hd). exact Hd.
Qed.

End TransientFacts.

(** ** C1: termination by the DOF ceiling *)

Section Termination.
Context `{H2D : Hermes2D}.
Hypothesis Hprog : adapt_makes_progress.

(** A step of the static loop either ends the loop or has added degrees of
    freedom and stayed below the ceiling. *)
Lemma hcurl_step_progress (cfg : Hcurl.Config) (st : Hcurl.State) :
  exists st1,
    Hcurl.adapt_step cfg st = Ret tt st1
    /\ (Hcurl.done st1 = true
        \/ get_num_dofs (Hcurl.space st) < get_num_dofs (Hcurl.space st1)
             < Hcurl.NDOF_STOP cfg).
Proof.
  destruct (estimate_spec cfg st) as (st0 & He & Hsp & _).
  destruct (decide_spec cfg (mkAdapt (Hcurl.space st) (Some (HcurlView.elem_errors_of st)))
              (HcurlView.err_est_of st) st0) as (st1 & Hd & _ & Hconv & Hrefine & Hceil).
  exists st1. split.
  { apply adapt_step_split. eauto. }
  destruct (dlt (HcurlView.err_est_of st) (Hcurl.ERR_STOP cfg)) eqn:Herr.
  { left. now apply Hconv. }
  destruct (lib_adapt (Hcurl.space st0) (Some (HcurlView.elem_errors_of st)))
    as [sp' d] eqn:Ha.
  destruct (Hrefine eq_refl sp' d Ha) as (Hsp' & _ & _ & Hdone).
  destruct d; [left; exact Hdone|].
  destruct (Z.leb_spec (Hcurl.NDOF_STOP cfg) (get_num_dofs sp')) as [Hge|Hlt].
  { left. exact Hdone. }
  right. rewrite Hsp', <- Hsp. split; [|exact Hlt].
  exact (Hprog _ _ _ Ha).
Qed.

(** The same for a step of the spatial adaptivity loop. *)
Lemma transient_step_progress (cfg : Transient.Config) (st : Transient.State) :
  exists st1,
    Transient.adapt_step cfg st = Ret tt st1
    /\ (Transient.done st1 = true
        \/ get_num_dofs (Transient.space st) < get_num_dofs (Transient.space st1)
             < Transient.NDOF_STOP cfg).
Proof.
  destruct (t_estimate_spec cfg st) as (st0 & He & Hsp & _).
  destruct (t_decide_spec cfg
              (mkAdapt (Transient.space st) (Some (TransientView.elem_errors_of cfg st)))
              (TransientView.err_est_of cfg st) st0)
    as (st1 & Hd & _ & Hconv & Hrefine & Hceil).
  exists st1. split.
  { apply t_adapt_step_split. eauto. }
  destruct (dlt (TransientView.err_est_of cfg st) (Transient.ERR_STOP cfg)) eqn:Herr.
  { left. now apply Hconv. }
  destruct (lib_adapt (Transient.space st0) (Some (TransientView.elem_errors_of cfg st)))
    as [sp' d] eqn:Ha.
  destruct (Hrefine eq_refl sp' d Ha) as (Hsp' & _ & _ & Hdone).
  destruct d; [left; exact Hdone|].
  destruct (Z.leb_spec (Transient.NDOF_STOP cfg) (get_num_dofs sp')) as [Hge|Hlt].
  { left. exact Hdone. }
  right. rewrite Hsp', <- Hsp. split; [|exact Hlt].
  exact (Hprog _ _ _ Ha).
Qed.

End Termination.

(** C1, as amended.  In either driver a step of the adaptivity loop that
    leaves the working space at or above [NDOF_STOP] is the last one,
    whatever the error estimate is.  With a Candidate Selector that adds at
    least one degree of freedom whenever it reports a refinement, the
    adaptivity loop of either driver returns from every state and for every
    configuration, after at most one step more than the distance of the DOF
    count to [NDOF_STOP].  The drivers bound the loop in no other way. *)
Theorem C1_adaptivity_loop_terminates `{H2D : Hermes2D} :
  (forall (cfg : Hcurl.Config) (st st1 : Hcurl.State),
      Hcurl.adapt_step cfg st = Ret tt st1 ->
      Hcurl.NDOF_STOP cfg <= get_num_dofs (Hcurl.space st1) ->
      Hcurl.done st1 = true
      /\ forall n, Hcurl.adaptivity_loop cfg (S n) st = Ret tt st1)
  /\ (forall (cfg : Transient.Config) (st st1 : Transient.State),
      Transient.adapt_step cfg st = Ret tt st1 ->
      Transient.NDOF_STOP cfg <= get_num_dofs (Transient.space st1) ->
      Transient.done st1 = true
      /\ forall n,
          do_while (S n) (Transient.adapt_step cfg)
            (fun s => negb (Transient.done s)) st = Ret tt st1)
  /\ (adapt_makes_progress ->
      (forall (cfg : Hcurl.Config) (st : Hcurl.State),
          exists n st',
            (n <= S (Z.to_nat (Hcurl.NDOF_STOP cfg - get_num_dofs (Hcurl.space st))))%nat
            /\ Hcurl.adaptivity_loop cfg n st = Ret tt st'
            /\ Hcurl.done st' = true)
      /\ (forall (cfg : Transient.Config) (st : Transient.State),
          exists n st',
            (n <= S (Z.to_nat (Transient.NDOF_STOP cfg
                               - get_num_dofs (Transient.space st))))%nat
            /\ Transient.spatial_adaptivity_loop cfg n st = Ret tt st'
            /\ Transient.done st' = true)).
Proof.
  split; [|split].
  - intros cfg st st1 Hs Hceil.
    apply adapt_step_split in Hs as (ad & err & st0 & He & Hd).
    destruct (decide_spec cfg ad err st0) as (st1' & Hd' & _ & _ & _ & Hdone).
    rewrite Hd in Hd'. inversion Hd'; subst st1'.
    split; [exact (Hdone Hceil)|]. intros n.
    apply do_while_exit.
    + apply adapt_step_split. eauto.
    + now rewrite (Hdone Hceil).
  - intros cfg st st1 Hs Hceil.
    apply t_adapt_step_split in Hs as (ad & err & st0 & He & Hd).
    destruct (t_decide_spec cfg ad err st0) as (st1' & Hd' & _ & _ & _ & Hdone).
    rewrite Hd in Hd'. inversion Hd'; subst st1'.
    split; [exact (Hdone Hceil)|]. intros n.
    apply do_while_exit.
    + apply t_adapt_step_split. eauto.
    + now rewrite (Hdone Hceil).
  - intros Hprog. split; intros cfg st.
    + destruct (do_while_terminates
                  (fun s => Z.to_nat (Hcurl.NDOF_STOP cfg - get_num_dofs (Hcurl.space s)))
                  (Hcurl.adapt_step cfg) (fun s => negb (Hcurl.done s))) with (s := st)
        as (n & st' & Hn & Hrun & Hc).
      { intros s. destruct (hcurl_step_progress Hprog cfg s) as (s1 & Hs & [Hd|Hlt]).
        - exists s1. split; [exact Hs|]. left. now rewrite Hd.
        - exists s1. split; [exact Hs|]. right. cbv beta. lia. }
      exists n, st'. split; [exact Hn|]. split; [exact Hrun|].
      now apply negb_false_iff in Hc.
    + destruct (do_while_terminates
                  (fun s => Z.to_nat (Transient.NDOF_STOP cfg
                                      - get_num_dofs (Transient.space s)))
                  (Transient.adapt_step cfg) (fun s => negb (Transient.done s)))
        with (s := Transient.set_as 1 (Transient.set_done false st))
        as (n & st' & Hn & Hrun & Hc).
      { intros s. destruct (transient_step_progress Hprog cfg s) as (s1 & Hs & [Hd|Hlt]).
        - exists s1. split; [exact Hs|]. left. now rewrite Hd.
        - exists s1. split; [exact Hs|]. right. cbv beta. lia. }
      exists n, st'. split; [exact Hn|]. split; [exact Hrun|].
      now apply negb_false_iff in Hc.
Qed.

(** The Candidate Selector of the small instance adds four degrees of
    freedom when it refines; the loop of the static driver started on mesh
    0 with ceiling 30 returns within 25 steps. *)
Lemma C1_adaptivity_loop_terminates_witness :
  @adapt_makes_progress (Toy.lib Toy.refining)
  /\ exists n st',
      (n <= 25)%nat
      /\ @Hcurl.adaptivity_loop (Toy.lib Toy.refining)
           (@Hcurl.default_config (Toy.lib Toy.refining) 30) n
           (@Hcurl.init_state (Toy.lib Toy.refining)
              (@Hcurl.default_config (Toy.lib Toy.refining) 30) 0%nat 0) = Ret tt st'
      /\ @Hcurl.done (Toy.lib Toy.refining) st' = true.
Proof.
  assert (Hp : @adapt_makes_progress (Toy.lib Toy.refining)).
  { intros sp errs sp'. unfold get_num_dofs. cbn. intros [= <-]. cbn. lia. }
  split; [exact Hp|].
  exact (proj1 (proj2 (proj2 (@C1_adaptivity_loop_terminates (Toy.lib Toy.refining))) Hp)
           (@Hcurl.default_config (Toy.lib Toy.refining) 30)
           (@Hcurl.init_state (Toy.lib Toy.refining)
              (@Hcurl.default_config (Toy.lib Toy.refining) 30) 0%nat 0)).
Defined.

(** *** A loop that never ends *)

Section IdleSelector.
Local Existing Instance Idle.lib.

(** With the Candidate Selector of [Idle.lib] a step of the static loop
    leaves the space as it was; it sets [done] only at or above the
    ceiling. *)
Lemma idle_step (s : Hcurl.State) :
  exists s1,
    Hcurl.adapt_step Idle.cfg s = Ret tt s1
    /\ Hcurl.space s1 = Hcurl.space s
    /\ Hcurl.done s1 = (Hcurl.NDOF_STOP Idle.cfg <=? get_num_dofs (Hcurl.space s)).
Proof.
  destruct (estimate_spec Idle.cfg s) as (s0 & He & Hsp & _).
  destruct (decide_spec Idle.cfg (mkAdapt (Hcurl.space s) (Some (HcurlView.elem_errors_of s)))
              (HcurlView.err_est_of s) s0) as (s1 & Hd & _ & _ & Hrefine & _).
  assert (Herr : dlt (HcurlView.err_est_of s) (Hcurl.ERR_STOP Idle.cfg) = false).
  { unfold HcurlView.err_est_of, HcurlView.sln_of. cbn. rewrite Z.sub_diag. reflexivity. }
  destruct (Hrefine Herr (Hcurl.space s0) false eq_refl) as (Hsp1 & _ & _ & Hdone).
  exists s1. split; [apply adapt_step_split; eauto|].
  split; [now rewrite Hsp1|].
  rewrite Hdone, Hsp. reflexivity.
Qed.

Lemma idle_loop_out_of_fuel n (s : Hcurl.State) :
  get_num_dofs (Hcurl.space s) < Hcurl.NDOF_STOP Idle.cfg ->
  Hcurl.adaptivity_loop Idle.cfg n s = OutOfFuel.
Proof.
  revert s. induction n as [|n IH]; intros s Hs; [reflexivity|].
  destruct (idle_step s) as (s1 & Hstep & Hsp & Hdone).
  apply Z.leb_gt in Hs as Hleb. rewrite Hleb in Hdone.
  unfold Hcurl.adaptivity_loop.
  rewrite (do_while_again n _ _ s s1 Hstep) by now rewrite Hdone.
  apply IH. now rewrite Hsp.
Qed.

End IdleSelector.

(** C1, counterexample.  The static driver with the finite ceiling 30,
    started on 6 degrees of freedom with a Candidate Selector that reports
    a refinement in every step and adds no degree of freedom: the DOF
    count never decreases, the estimate stays at 5 %, the ceiling is never
    reached, and no number of steps makes the adaptivity loop return. *)
Lemma C1_idle_selector_loop_never_returns :
  @Hcurl.NDOF_STOP Idle.lib Idle.cfg = 30
  /\ @get_num_dofs Idle.lib (@Hcurl.space Idle.lib Idle.start) = 6
  /\ (forall sp errs,
         @get_num_dofs Idle.lib sp
         <= @get_num_dofs Idle.lib (fst (@lib_adapt Idle.lib sp errs)))
  /\ ~ exists n st', @Hcurl.adaptivity_loop Idle.lib Idle.cfg n Idle.start = Ret tt st'.
Proof.
  split; [reflexivity|]. split; [reflexivity|]. split.
  { intros sp errs. cbn. lia. }
  intros (n & st' & Hrun).
  rewrite idle_loop_out_of_fuel in Hrun; [discriminate|].
  vm_compute. reflexivity.
Qed.

(** ** C2: what a stop at the DOF ceiling leaves behind *)


Section Diagnostics.
Context `{H2D : Hermes2D}.











End Diagnostics.



(** Side by side: the run that stops by the tolerance and the run that
    stops at the ceiling both end with [done] set, and their records read
    differently. *)
Example tolerance_stop_and_ceiling_stop :
  (@Hcurl.adaptivity_loop (Toy.lib Toy.accurate) Runs.accurate_cfg 5 Runs.accurate_start
   = Ret tt Runs.accurate_final
   /\ @Hcurl.done (Toy.lib Toy.accurate) Runs.accurate_final = true
   /\ @HcurlView.recorded_converged (Toy.lib Toy.accurate) Runs.accurate_cfg
        (@Hcurl.graph_dof_est (Toy.lib Toy.accurate) Runs.accurate_final) = true)
  /\ (@Hcurl.adaptivity_loop (Toy.lib Toy.refining) Runs.hcurl_cfg 5 Runs.hcurl_start
      = Ret tt Runs.hcurl_final
      /\ @Hcurl.done (Toy.lib Toy.refining) Runs.hcurl_final = true
      /\ @HcurlView.recorded_converged (Toy.lib Toy.refining) Runs.hcurl_cfg
           (@Hcurl.graph_dof_est (Toy.lib Toy.refining) Runs.hcurl_final) = false).
Proof. repeat split; evaluated. Qed.

(** ** C3: a failing solver does not stop the loops *)

Section SolverFailure.
Context `{H2D : Hermes2D}.

(** No piece of the transient time step throws. *)
Lemma periodic_derefinement_spec (cfg : Transient.Config) (st : Transient.State) :
  Transient.periodic_derefinement cfg st
  = Ret tt (if Transient.derefinement_due cfg (Transient.ts st)
            then TransientView.derefined cfg st else st).
Proof.
  unfold Transient.periodic_derefinement, TransientView.derefined, Transient.info,
    Transient.emit, bind, try_catch, gets, modify, ret.
  cbn. destruct (Transient.derefinement_due cfg (Transient.ts st)); reflexivity.
Qed.

Lemma advance_spec (cfg : Transient.Config) (s : Transient.State) :
  exists s',
    Transient.advance cfg s = Ret tt s'
    /\ Transient.sln_time_prev s' = Transient.sln_time_new s
    /\ Transient.sln_time_new s' = Transient.sln_time_new s
    /\ Transient.space s' = Transient.space s
    /\ Transient.ts s' = Transient.ts s + 1
    /\ Transient.trace s' = Transient.trace s ++ [EvCopyPrev (Transient.sln_time_new s)].
Proof.
  unfold Transient.advance, Transient.emit, bind, gets, modify, ret. cbn.
  eexists. split; [reflexivity|]. cbn. repeat split; reflexivity.
Qed.

Lemma time_step_body_no_throw (cfg : Transient.Config) n st e s' :
  Transient.time_step_body cfg n st <> Throw e s'.
Proof.
  unfold Transient.time_step_body, bind at 1.
  rewrite periodic_derefinement_spec.
  set (st0 := if Transient.derefinement_due cfg (Transient.ts st) then _ else _).
  unfold bind at 1.
  destruct (Transient.spatial_adaptivity_loop cfg n st0) as [[] s1|e1 s1|] eqn:Hloop.
  - destruct (advance_spec cfg s1) as (s2 & -> & _). discriminate.
  - exfalso. revert Hloop.
    apply (do_while_no_throw n (Transient.adapt_step cfg)).
    intros s e2 s2. destruct (t_adapt_step_ret cfg s) as (s3 & ->). discriminate.
  - discriminate.
Qed.

End SolverFailure.

(** C3.  In a step of either driver in which the solver raises an
    exception, the exception is printed, the step completes, the vector the
    solver left behind is the reference solution of the step (for the
    transient driver: the contents the solver left in the new time level
    solution), it is projected, the error estimate is computed from the
    two, and the stopping decision is taken on that estimate.  No run of
    the adaptivity loop or of the time stepping loop ends in an
    exception. *)
Theorem C3_solver_failure_is_absorbed `{H2D : Hermes2D} :
  (forall (cfg : Hcurl.Config) (st : Hcurl.State) v e,
      HcurlView.solve_result st = (v, Some e) ->
      exists ad st0 st1,
        Hcurl.adapt_step cfg st = Ret tt st1
        /\ In (EvPrintMsg e) (Hcurl.trace st1)
        /\ Hcurl.ref_sln st1 = vector_to_solution v (ref_space_of (Hcurl.space st))
        /\ Hcurl.sln st1 = project_global (Hcurl.space st) (Hcurl.ref_sln st1)
        /\ last (Hcurl.graph_dof_est st1)
           = Some (get_num_dofs (Hcurl.space st),
                   dmul (fst (lib_calc_err (Hcurl.space st) (Hcurl.sln st1)
                                (Hcurl.ref_sln st1))) (dlit 100))
        /\ Hcurl.estimate cfg st = Ret (ad, HcurlView.err_est_of st) st0
        /\ Hcurl.decide cfg ad (HcurlView.err_est_of st) st0 = Ret tt st1)
  /\ (forall (cfg : Hcurl.Config) n (st : Hcurl.State) e s',
      Hcurl.adaptivity_loop cfg n st <> Throw e s')
  /\ (forall (cfg : Transient.Config) (st : Transient.State) new e,
      TransientView.rk_result cfg st = (new, Some e) ->
      exists ad st0 st1,
        Transient.adapt_step cfg st = Ret tt st1
        /\ In (EvPrintMsg e) (Transient.trace st1)
        /\ Transient.sln_time_new st1 = new
        /\ In (EvProject (Transient.space st) new) (Transient.trace st1)
        /\ In (EvCalcErr (Transient.space st)
                 (project_global (Transient.space st) new) new) (Transient.trace st1)
        /\ Transient.estimate cfg st = Ret (ad, TransientView.err_est_of cfg st) st0
        /\ Transient.decide cfg ad (TransientView.err_est_of cfg st) st0 = Ret tt st1)
  /\ (forall (cfg : Transient.Config) n_ts n_as (st : Transient.State) e s',
      Transient.time_stepping_loop cfg n_ts n_as st <> Throw e s').
Proof.
  repeat split.
  - intros cfg st v e Hfail.
    destruct (estimate_spec cfg st)
      as (st0 & He & Hsp & _ & _ & _ & _ & _ & Hrs & Hs & Hg & _ & _ & _ & Htr).
    destruct (decide_spec cfg (mkAdapt (Hcurl.space st) (Some (HcurlView.elem_errors_of st)))
                (HcurlView.err_est_of st) st0)
      as (st1 & Hd & (Hs1 & Hrs1 & _ & _ & _ & Hg1 & _) & Hconv & Hrefine & _).
    exists (mkAdapt (Hcurl.space st) (Some (HcurlView.elem_errors_of st))), st0, st1.
    assert (Hin : In (EvPrintMsg e) (Hcurl.trace st0)).
    { rewrite Htr. apply in_or_app. right.
      unfold HcurlView.estimate_events. rewrite Hfail. cbn. auto. }
    assert (Href : Hcurl.ref_sln st1
                   = vector_to_solution v (ref_space_of (Hcurl.space st))).
    { rewrite Hrs1, Hrs. unfold HcurlView.ref_sln_of. now rewrite Hfail. }
    assert (Hsln : Hcurl.sln st1 = project_global (Hcurl.space st) (Hcurl.ref_sln st1)).
    { rewrite Hs1, Hs, Hrs1, Hrs. reflexivity. }
    split; [apply adapt_step_split; eauto|].
    split.
    { destruct (dlt (HcurlView.err_est_of st) (Hcurl.ERR_STOP cfg)) eqn:Herr.
      - destruct (Hconv eq_refl) as (_ & -> & _). exact Hin.
      - destruct (lib_adapt (Hcurl.space st0) (Some (HcurlView.elem_errors_of st)))
          as [sp' d] eqn:Ha.
        destruct (Hrefine eq_refl sp' d Ha) as (_ & -> & _).
        apply in_or_app. now left. }
    split; [exact Href|]. split; [exact Hsln|].
    split; [|split; [exact He|exact Hd]].
    rewrite Hg1, Hg, last_snoc. do 2 f_equal.
    unfold HcurlView.err_est_of. rewrite Hs1, Hs, Hrs1, Hrs. reflexivity.
  - intros cfg n st e s'. apply do_while_no_throw.
    intros s e1 s1. destruct (adapt_step_ret cfg s) as (s2 & ->). discriminate.
  - intros cfg st new e Hfail.
    destruct (t_estimate_spec cfg st)
      as (st0 & He & Hsp & _ & _ & _ & Hnew & _ & _ & _ & _ & Htr).
    destruct (t_decide_spec cfg
                (mkAdapt (Transient.space st) (Some (TransientView.elem_errors_of cfg st)))
                (TransientView.err_est_of cfg st) st0)
      as (st1 & Hd & (_ & _ & _ & Hnew1 & _) & Hconv & Hrefine & _).
    exists (mkAdapt (Transient.space st) (Some (TransientView.elem_errors_of cfg st))),
      st0, st1.
    assert (Hnew0 : TransientView.new_sln_of cfg st = new).
    { unfold TransientView.new_sln_of. now rewrite Hfail. }
    assert (Hsub : forall ev, In ev (Transient.trace st0) -> In ev (Transient.trace st1)).
    { intros ev Hev.
      destruct (dlt (TransientView.err_est_of cfg st) (Transient.ERR_STOP cfg)) eqn:Herr.
      - destruct (Hconv eq_refl) as (_ & -> & _). apply in_or_app. now left.
      - destruct (lib_adapt (Transient.space st0)
                    (Some (TransientView.elem_errors_of cfg st))) as [sp' d] eqn:Ha.
        destruct (Hrefine eq_refl sp' d Ha) as (_ & -> & _).
        apply in_or_app. now left. }
    split; [apply t_adapt_step_split; eauto|].
    split.
    { apply Hsub. rewrite Htr. apply in_or_app. right.
      unfold TransientView.estimate_events. rewrite Hfail. cbn. auto 10. }
    split; [now rewrite Hnew1, Hnew|].
    split.
    { apply Hsub. rewrite Htr. apply in_or_app. right.
      unfold TransientView.estimate_events. rewrite Hnew0.
      apply in_or_app. right. apply in_or_app. right. cbn. auto 10. }
    split; [|split; [exact He|exact Hd]].
    apply Hsub. rewrite Htr. apply in_or_app. right.
    unfold TransientView.estimate_events, TransientView.coarse_of. rewrite Hnew0.
    apply in_or_app. right. apply in_or_app. right. cbn. auto 10.
  - intros cfg n_ts n_as st e s'. apply do_while_no_throw.
    intros s e1 s1. apply time_step_body_no_throw.
Qed.

(** On the small instance with the failing solver, the first step of the
    static driver prints the exception and completes. *)
Lemma C3_solver_failure_is_absorbed_witness :
  @HcurlView.solve_result (Toy.lib Toy.failing) Runs.failing_start
  = (Runs.failing_vector, Some Toy.not_converged)
  /\ exists st1,
      @Hcurl.adapt_step (Toy.lib Toy.failing) Runs.failing_cfg Runs.failing_start
      = Ret tt st1
      /\ In (EvPrintMsg Toy.not_converged) (@Hcurl.trace (Toy.lib Toy.failing) st1).
Proof.
  assert (Hfail : @HcurlView.solve_result (Toy.lib Toy.failing) Runs.failing_start
                  = (Runs.failing_vector, Some Toy.not_converged)) by evaluated.
  split; [exact Hfail|].
  destruct (proj1 (@C3_solver_failure_is_absorbed (Toy.lib Toy.failing))
              Runs.failing_cfg Runs.failing_start Runs.failing_vector Toy.not_converged
              Hfail) as (ad & st0 & st1 & Hstep & Hlog & _).
  exists st1. split; [exact Hstep|exact Hlog].
Defined.

(** ** C6: nothing to refine ends the run *)

Section Stagnation.
Context `{H2D : Hermes2D}.

Lemma count_app (p : Event -> bool) (tr evs : list Event) :
  count p (tr ++ evs) = (count p tr + count p evs)%nat.
Proof. unfold count. now rewrite List.filter_app, length_app. Qed.

(** Lines 118-172 build one reference space. *)
Lemma hcurl_estimate_ref_builds (cfg : Hcurl.Config) (st : Hcurl.State) :
  count is_ref_build (HcurlView.estimate_events cfg st) = 1%nat.
Proof.
  unfold HcurlView.estimate_events.
  destruct (snd (HcurlView.solve_result st)), (Hcurl.HERMES_VISUALIZATION cfg);
    reflexivity.
Qed.

Lemma transient_estimate_ref_builds (cfg : Transient.Config) (st : Transient.State) :
  count is_ref_build (TransientView.estimate_events cfg st) = 1%nat.
Proof.
  unfold TransientView.estimate_events.
  destruct (snd (TransientView.rk_result cfg st)); reflexivity.
Qed.

End Stagnation.

(** C6.  In a step of either driver whose error estimate is not below
    [ERR_STOP] and in which the Candidate Selector reports that nothing
    was refined, the step sets [done], the loop returns at the end of that
    step whatever fuel is left, and the run has built exactly one reference
    space from the start of that step on: the one of that step. *)
Theorem C6_no_candidate_ends_run `{H2D : Hermes2D} :
  (forall (cfg : Hcurl.Config) (st : Hcurl.State) sp',
      dlt (HcurlView.err_est_of st) (Hcurl.ERR_STOP cfg) = false ->
      lib_adapt (Hcurl.space st) (Some (HcurlView.elem_errors_of st)) = (sp', true) ->
      exists st1,
        Hcurl.adapt_step cfg st = Ret tt st1
        /\ Hcurl.done st1 = true
        /\ (forall n, Hcurl.adaptivity_loop cfg (S n) st = Ret tt st1)
        /\ count is_ref_build (Hcurl.trace st1)
           = S (count is_ref_build (Hcurl.trace st)))
  /\ (forall (cfg : Transient.Config) (st : Transient.State) sp',
      dlt (TransientView.err_est_of cfg st) (Transient.ERR_STOP cfg) = false ->
      lib_adapt (Transient.space st) (Some (TransientView.elem_errors_of cfg st))
      = (sp', true) ->
      exists st1,
        Transient.adapt_step cfg st = Ret tt st1
        /\ Transient.done st1 = true
        /\ (forall n,
               do_while (S n) (Transient.adapt_step cfg)
                 (fun s => negb (Transient.done s)) st = Ret tt st1)
        /\ count is_ref_build (Transient.trace st1)
           = S (count is_ref_build (Transient.trace st))).
Proof.
  split; intros cfg st sp' Herr Hadapt.
  - destruct (estimate_spec cfg st)
      as (st0 & He & Hsp & _ & _ & _ & _ & _ & _ & _ & _ & _ & _ & _ & Htr).
    destruct (decide_spec cfg (mkAdapt (Hcurl.space st) (Some (HcurlView.elem_errors_of st)))
                (HcurlView.err_est_of st) st0) as (st1 & Hd & _ & _ & Hrefine & _).
    rewrite <- Hsp in Hadapt.
    destruct (Hrefine Herr sp' true Hadapt) as (_ & Htr1 & _ & Hdone).
    assert (Hstep : Hcurl.adapt_step cfg st = Ret tt st1).
    { apply adapt_step_split. eauto. }
    exists st1. split; [exact Hstep|]. split; [exact Hdone|]. split.
    + intros n. apply do_while_exit; [exact Hstep|]. now rewrite Hdone.
    + rewrite Htr1, Htr, !count_app, hcurl_estimate_ref_builds. cbn. lia.
  - destruct (t_estimate_spec cfg st)
      as (st0 & He & Hsp & _ & _ & _ & _ & _ & _ & _ & _ & Htr).
    destruct (t_decide_spec cfg
                (mkAdapt (Transient.space st) (Some (TransientView.elem_errors_of cfg st)))
                (TransientView.err_est_of cfg st) st0) as (st1 & Hd & _ & _ & Hrefine & _).
    rewrite <- Hsp in Hadapt.
    destruct (Hrefine Herr sp' true Hadapt) as (_ & Htr1 & _ & Hdone).
    assert (Hstep : Transient.adapt_step cfg st = Ret tt st1).
    { apply t_adapt_step_split. eauto. }
    exists st1. split; [exact Hstep|]. split; [exact Hdone|]. split.
    + intros n. apply do_while_exit; [exact Hstep|]. now rewrite Hdone.
    + rewrite Htr1, Htr, !count_app, transient_estimate_ref_builds. cbn. lia.
Qed.

(** On the small instance whose selector finds nothing to refine, the
    first step of the static driver is the only one. *)
Lemma C6_no_candidate_ends_run_witness :
  @dlt (Toy.lib Toy.stagnating)
    (@HcurlView.err_est_of (Toy.lib Toy.stagnating) Runs.stagnating_start)
    (@Hcurl.ERR_STOP (Toy.lib Toy.stagnating) Runs.stagnating_cfg) = false
  /\ @lib_adapt (Toy.lib Toy.stagnating)
       (@Hcurl.space (Toy.lib Toy.stagnating) Runs.stagnating_start)
       (Some (@HcurlView.elem_errors_of (Toy.lib Toy.stagnating) Runs.stagnating_start))
     = (@Hcurl.space (Toy.lib Toy.stagnating) Runs.stagnating_start, true)
  /\ exists st1,
      (forall n,
          @Hcurl.adaptivity_loop (Toy.lib Toy.stagnating) Runs.stagnating_cfg (S n)
            Runs.stagnating_start = Ret tt st1)
      /\ count is_ref_build (@Hcurl.trace (Toy.lib Toy.stagnating) st1) = 1%nat.
Proof.
  assert (Herr : @dlt (Toy.lib Toy.stagnating)
                   (@HcurlView.err_est_of (Toy.lib Toy.stagnating) Runs.stagnating_start)
                   (@Hcurl.ERR_STOP (Toy.lib Toy.stagnating) Runs.stagnating_cfg) = false)
    by evaluated.
  assert (Hadapt : @lib_adapt (Toy.lib Toy.stagnating)
                     (@Hcurl.space (Toy.lib Toy.stagnating) Runs.stagnating_start)
                     (Some (@HcurlView.elem_errors_of (Toy.lib Toy.stagnating)
                              Runs.stagnating_start))
                   = (@Hcurl.space (Toy.lib Toy.stagnating) Runs.stagnating_start, true))
    by reflexivity.
  split; [exact Herr|]. split; [exact Hadapt|].
  destruct (proj1 (@C6_no_candidate_ends_run (Toy.lib Toy.stagnating))
              Runs.stagnating_cfg Runs.stagnating_start _ Herr Hadapt)
    as (st1 & _ & _ & Hloop & Hcount).
  exists st1. split; [exact Hloop|exact Hcount].
Defined.

(** ** C7: the exact solution does not influence the loop *)

Section ExactError.
Context `{H2D : Hermes2D}.
Import Hcurl HcurlView.
Variable cfg : Config.

(** Two states that agree on everything but the exact solution, the exact
    error graph and the output made from them agree in the same way after
    one step. *)
Lemma adapt_step_unwinding (s1 s2 : State) :
  control s1 = control s2 ->
  control_outcome (adapt_step cfg s1) = control_outcome (adapt_step cfg s2).
Proof.
  destruct s1, s2. unfold control. cbn. intros Heq.
  injection Heq as -> -> -> -> -> -> -> -> -> -> Htr.
  hcurl_run; unfold control; cbn; rewrite ?List.filter_app; cbn; rewrite Htr;
    reflexivity.
Qed.

Lemma adaptivity_loop_unwinding n (s1 s2 : State) :
  control s1 = control s2 ->
  control_outcome (adaptivity_loop cfg n s1) = control_outcome (adaptivity_loop cfg n s2).
Proof.
  unfold adaptivity_loop. revert s1 s2.
  induction n as [|n IH]; intros s1 s2 Heq; [reflexivity|].
  cbn. unfold bind.
  pose proof (adapt_step_unwinding s1 s2 Heq) as Hstep.
  destruct (adapt_step_ret cfg s1) as (t1 & H1).
  destruct (adapt_step_ret cfg s2) as (t2 & H2).
  rewrite H1, H2 in Hstep |- *.
  assert (Ht : control t1 = control t2)
    by (unfold control_outcome in Hstep; congruence).
  assert (Hdone : done t1 = done t2) by exact (f_equal c_done Ht).
  rewrite Hdone. destruct (done t2); cbn.
  - now rewrite Ht.
  - apply IH. exact Ht.
Qed.

End ExactError.

(** C7.  Two runs of the static adaptivity loop from states that differ
    at most in the exact solution, in the exact-error graph and in the saved
    copies of that graph end alike, with the same fuel: both return, both
    run out of fuel, or both throw, and the final states again differ at
    most in those three.  In particular the working space, the [done] flag,
    the step counter, the estimated-error graph and the sequence of all
    library calls, with every refinement made, are the same.  The
    adaptivity object that [adapt] works on holds the per-element errors of
    the estimate against the reference solution. *)
Theorem C7_exact_error_does_not_interfere `{H2D : Hermes2D} :
  forall (cfg : Hcurl.Config) n (s1 s2 : Hcurl.State),
    HcurlView.control s1 = HcurlView.control s2 ->
    HcurlView.control_outcome (Hcurl.adaptivity_loop cfg n s1)
    = HcurlView.control_outcome (Hcurl.adaptivity_loop cfg n s2)
    /\ exists st0,
        Hcurl.estimate cfg s1
        = Ret (mkAdapt (Hcurl.space s1)
                 (Some (snd (lib_calc_err (Hcurl.space s1) (HcurlView.sln_of s1)
                               (HcurlView.ref_sln_of s1)))),
               HcurlView.err_est_of s1) st0.
Proof.
  intros cfg n s1 s2 Heq. split.
  - now apply adaptivity_loop_unwinding.
  - destruct (estimate_spec cfg s1) as (st0 & He & _). exists st0. exact He.
Qed.

(** The static loop on the small instance, run with exact solution 0 and
    with exact solution 7. *)
Lemma C7_exact_error_does_not_interfere_witness :
  @HcurlView.control (Toy.lib Toy.refining) Runs.hcurl_start
  = @HcurlView.control (Toy.lib Toy.refining) Runs.hcurl_start'
  /\ @Hcurl.sln_exact (Toy.lib Toy.refining) Runs.hcurl_start
     <> @Hcurl.sln_exact (Toy.lib Toy.refining) Runs.hcurl_start'
  /\ @HcurlView.control_outcome (Toy.lib Toy.refining)
       (@Hcurl.adaptivity_loop (Toy.lib Toy.refining) Runs.hcurl_cfg 5 Runs.hcurl_start)
     = @HcurlView.control_outcome (Toy.lib Toy.refining)
         (@Hcurl.adaptivity_loop (Toy.lib Toy.refining) Runs.hcurl_cfg 5 Runs.hcurl_start').
Proof.
  assert (Heq : @HcurlView.control (Toy.lib Toy.refining) Runs.hcurl_start
                = @HcurlView.control (Toy.lib Toy.refining) Runs.hcurl_start')
    by reflexivity.
  split; [exact Heq|]. split; [discriminate|].
  exact (proj1 (@C7_exact_error_does_not_interfere (Toy.lib Toy.refining)
                  Runs.hcurl_cfg 5%nat Runs.hcurl_start Runs.hcurl_start' Heq)).
Defined.

(** ** C8: the convergence graphs *)

Section Graphs.
Context `{H2D : Hermes2D}.

(** No step of the static driver touches the two CPU-time graphs. *)
Lemma hcurl_cpu_graphs_unchanged (cfg : Hcurl.Config) n (st st' : Hcurl.State) :
  Hcurl.adaptivity_loop cfg n st = Ret tt st' ->
  Hcurl.graph_cpu_est st' = Hcurl.graph_cpu_est st
  /\ Hcurl.graph_cpu_exact st' = Hcurl.graph_cpu_exact st.
Proof.
  apply (do_while_invariant
           (fun s => Hcurl.graph_cpu_est s = Hcurl.graph_cpu_est st
                     /\ Hcurl.graph_cpu_exact s = Hcurl.graph_cpu_exact st));
    [|split; reflexivity].
  intros s s1 [H1 H2] Hs.
  apply adapt_step_split in Hs as (ad & err & s0 & He & Hd).
  destruct (estimate_spec cfg s)
    as (s0' & He' & _ & _ & _ & _ & _ & _ & _ & _ & _ & _ & Hc1 & Hc2 & _).
  rewrite He in He'. inversion He'; subst ad err s0'.
  destruct (decide_spec cfg (mkAdapt (Hcurl.space s) (Some (HcurlView.elem_errors_of s)))
              (HcurlView.err_est_of s) s0)
    as (s1' & Hd' & (_ & _ & _ & _ & _ & _ & _ & Hd1 & Hd2) & _).
  rewrite Hd in Hd'. inversion Hd'; subst s1'.
  split; congruence.
Qed.

End Graphs.

(** C8, at the run of the static driver on the small instance: after two
    completed steps the graphs of the estimated and of the exact error over
    the DOF count have two entries each, and the two graphs over CPU time
    have none. *)
Example C8_cpu_graphs_stay_empty :
  @Hcurl.adaptivity_loop (Toy.lib Toy.refining) Runs.hcurl_cfg 5 Runs.hcurl_start
  = Ret tt Runs.hcurl_final
  /\ length (@Hcurl.graph_dof_est (Toy.lib Toy.refining) Runs.hcurl_final) = 2%nat
  /\ length (@Hcurl.graph_dof_exact (Toy.lib Toy.refining) Runs.hcurl_final) = 2%nat
  /\ @Hcurl.graph_cpu_est (Toy.lib Toy.refining) Runs.hcurl_final = []
  /\ @Hcurl.graph_cpu_exact (Toy.lib Toy.refining) Runs.hcurl_final = [].
Proof.
  split; [evaluated|]. repeat split; reflexivity.
Qed.

(** ** C10: the initial guess of Newton's method *)

Section InitialGuess.
Context `{H2D : Hermes2D}.

Lemma hcurl_estimate_events_zero (cfg : Hcurl.Config) (st : Hcurl.State) :
  Forall zero_initial_guess (HcurlView.estimate_events cfg st)
  /\ List.filter is_newton_solve (HcurlView.estimate_events cfg st)
     = [EvNewtonSolve (ref_space_of (Hcurl.space st))
          (zero_vector (ref_space_of (Hcurl.space st)))].
Proof.
  unfold HcurlView.estimate_events.
  destruct (snd (HcurlView.solve_result st)), (Hcurl.HERMES_VISUALIZATION cfg);
    cbn; (split; [repeat constructor|reflexivity]).
Qed.

(** The events of one step of the static driver. *)
Lemma hcurl_step_events (cfg : Hcurl.Config) (st st1 : Hcurl.State) :
  Hcurl.adapt_step cfg st = Ret tt st1 ->
  exists evs,
    Hcurl.trace st1 = Hcurl.trace st ++ evs
    /\ Forall zero_initial_guess evs
    /\ List.filter is_newton_solve evs
       = [EvNewtonSolve (ref_space_of (Hcurl.space st))
            (zero_vector (ref_space_of (Hcurl.space st)))].
Proof.
  intros Hs. apply adapt_step_split in Hs as (ad & err & s0 & He & Hd).
  destruct (estimate_spec cfg st)
    as (s0' & He' & Hsp & _ & _ & _ & _ & _ & _ & _ & _ & _ & _ & _ & Htr).
  rewrite He in He'. inversion He'; subst ad err s0'.
  destruct (decide_spec cfg (mkAdapt (Hcurl.space st) (Some (HcurlView.elem_errors_of st)))
              (HcurlView.err_est_of st) s0) as (s1' & Hd' & _ & Hconv & Hrefine & _).
  rewrite Hd in Hd'. inversion Hd'; subst s1'.
  destruct (hcurl_estimate_events_zero cfg st) as (Hz & Hf).
  destruct (dlt (HcurlView.err_est_of st) (Hcurl.ERR_STOP cfg)) eqn:Herr.
  - destruct (Hconv eq_refl) as (_ & Htr1 & _).
    exists (HcurlView.estimate_events cfg st). rewrite Htr1, Htr. auto.
  - destruct (lib_adapt (Hcurl.space s0) (Some (HcurlView.elem_errors_of st)))
      as [sp' d] eqn:Ha.
    destruct (Hrefine eq_refl sp' d Ha) as (_ & Htr1 & _).
    exists (HcurlView.estimate_events cfg st ++ [EvAdapt (Hcurl.space s0) sp' d]).
    rewrite Htr1, Htr, <- app_assoc. split; [reflexivity|]. split.
    + apply Forall_app. split; [exact Hz|]. repeat constructor.
    + rewrite List.filter_app, Hf. reflexivity.
Qed.

End InitialGuess.

(** C10.  Every step of the static adaptivity loop calls the Newton solver
    exactly once, on the reference space built in that step and with the
    all-zeros vector whose length is the DOF count of that space; in the
    trace of a whole run, started from a trace with this property, every
    call of the solver has it. *)
Theorem C10_newton_starts_from_zero `{H2D : Hermes2D} :
  forall (cfg : Hcurl.Config),
    (forall (st st1 : Hcurl.State),
        Hcurl.adapt_step cfg st = Ret tt st1 ->
        exists evs,
          Hcurl.trace st1 = Hcurl.trace st ++ evs
          /\ List.filter is_newton_solve evs
             = [EvNewtonSolve (ref_space_of (Hcurl.space st))
                  (replicate (Z.to_nat (get_num_dofs (ref_space_of (Hcurl.space st))))
                     scalar_zero)])
    /\ (forall n (st st' : Hcurl.State),
           Forall zero_initial_guess (Hcurl.trace st) ->
           Hcurl.adaptivity_loop cfg n st = Ret tt st' ->
           Forall zero_initial_guess (Hcurl.trace st')).
Proof.
  intros cfg. split.
  - intros st st1 Hs. destruct (hcurl_step_events cfg st st1 Hs) as (evs & Htr & _ & Hf).
    exists evs. split; [exact Htr|exact Hf].
  - intros n st st' Hz.
    apply (do_while_invariant (fun s => Forall zero_initial_guess (Hcurl.trace s)));
      [|exact Hz].
    intros s s1 Hs Hstep.
    destruct (hcurl_step_events cfg s s1 Hstep) as (evs & -> & Hevs & _).
    apply Forall_app. split; assumption.
Qed.

(** The run of the static driver on the small instance starts with an
    empty trace; all its solver calls start from zero vectors. *)
Lemma C10_newton_starts_from_zero_witness :
  Forall (@zero_initial_guess (Toy.lib Toy.refining))
    (@Hcurl.trace (Toy.lib Toy.refining) Runs.hcurl_start)
  /\ @Hcurl.adaptivity_loop (Toy.lib Toy.refining) Runs.hcurl_cfg 5 Runs.hcurl_start
     = Ret tt Runs.hcurl_final
  /\ Forall (@zero_initial_guess (Toy.lib Toy.refining))
       (@Hcurl.trace (Toy.lib Toy.refining) Runs.hcurl_final)
  /\ count (@is_newton_solve (Toy.lib Toy.refining))
       (@Hcurl.trace (Toy.lib Toy.refining) Runs.hcurl_final) = 2%nat.
Proof.
  assert (Hz : Forall (@zero_initial_guess (Toy.lib Toy.refining))
                 (@Hcurl.trace (Toy.lib Toy.refining) Runs.hcurl_start))
    by constructor.
  assert (Hrun : @Hcurl.adaptivity_loop (Toy.lib Toy.refining) Runs.hcurl_cfg 5
                   Runs.hcurl_start = Ret tt Runs.hcurl_final) by evaluated.
  split; [exact Hz|]. split; [exact Hrun|]. split; [|evaluated].
  exact (proj2 (@C10_newton_starts_from_zero (Toy.lib Toy.refining) Runs.hcurl_cfg)
           5%nat Runs.hcurl_start Runs.hcurl_final Hz Hrun).
Defined.

(** ** C9: the previous time level solution *)

Section PreviousSolution.
Context `{H2D : Hermes2D}.

(** A step of the spatial adaptivity loop leaves [sln_time_prev] alone,
    hands it to the Runge-Kutta step, and does not copy. *)
Lemma transient_step_events (cfg : Transient.Config) (s s1 : Transient.State) :
  Transient.adapt_step cfg s = Ret tt s1 ->
  Transient.sln_time_prev s1 = Transient.sln_time_prev s
  /\ exists evs,
      Transient.trace s1 = Transient.trace s ++ evs
      /\ count is_copy_prev evs = 0%nat
      /\ Forall (steps_from (Transient.sln_time_prev s)) evs.
Proof.
  intros Hs. apply t_adapt_step_split in Hs as (ad & err & s0 & He & Hd).
  destruct (t_estimate_spec cfg s)
    as (s0' & He' & Hsp & _ & _ & Hprev & _ & _ & _ & _ & _ & Htr).
  rewrite He in He'. inversion He'; subst ad err s0'.
  destruct (t_decide_spec cfg
              (mkAdapt (Transient.space s) (Some (TransientView.elem_errors_of cfg s)))
              (TransientView.err_est_of cfg s) s0)
    as (s1' & Hd' & (_ & _ & Hprev1 & _) & Hconv & Hrefine & _).
  rewrite Hd in Hd'. inversion Hd'; subst s1'.
  split; [congruence|].
  assert (Hest : count is_copy_prev (TransientView.estimate_events cfg s) = 0%nat
                 /\ Forall (steps_from (Transient.sln_time_prev s))
                      (TransientView.estimate_events cfg s)).
  { unfold TransientView.estimate_events.
    destruct (snd (TransientView.rk_result cfg s)); cbn;
      (split; [reflexivity|repeat constructor]). }
  destruct Hest as (Hc & Hf).
  destruct (dlt (TransientView.err_est_of cfg s) (Transient.ERR_STOP cfg)) eqn:Herr.
  - destruct (Hconv eq_refl) as (_ & Htr1 & _).
    eexists. rewrite Htr1, Htr, <- app_assoc. split; [reflexivity|]. split.
    + rewrite count_app, Hc. reflexivity.
    + apply Forall_app. split; [exact Hf|repeat constructor].
  - destruct (lib_adapt (Transient.space s0) (Some (TransientView.elem_errors_of cfg s)))
      as [sp' d] eqn:Ha.
    destruct (Hrefine eq_refl sp' d Ha) as (_ & Htr1 & _).
    eexists. rewrite Htr1, Htr, <- app_assoc. split; [reflexivity|]. split.
    + rewrite count_app, Hc. reflexivity.
    + apply Forall_app. split; [exact Hf|repeat constructor].
Qed.

(** The same for the whole spatial adaptivity loop. *)
Lemma spatial_adaptivity_loop_events (cfg : Transient.Config) n (st st' : Transient.State) :
  Transient.spatial_adaptivity_loop cfg n st = Ret tt st' ->
  Transient.sln_time_prev st' = Transient.sln_time_prev st
  /\ exists evs,
      Transient.trace st' = Transient.trace st ++ evs
      /\ count is_copy_prev evs = 0%nat
      /\ Forall (steps_from (Transient.sln_time_prev st)) evs.
Proof.
  apply (do_while_invariant
           (fun s => Transient.sln_time_prev s = Transient.sln_time_prev st
                     /\ exists evs,
                         Transient.trace s = Transient.trace st ++ evs
                         /\ count is_copy_prev evs = 0%nat
                         /\ Forall (steps_from (Transient.sln_time_prev st)) evs)).
  - intros s s1 (Hprev & evs & Htr & Hc & Hf) Hs.
    destruct (transient_step_events cfg s s1 Hs) as (Hprev1 & evs1 & Htr1 & Hc1 & Hf1).
    split; [congruence|].
    exists (evs ++ evs1). rewrite Htr1, Htr, <- app_assoc. split; [reflexivity|]. split.
    + rewrite count_app, Hc, Hc1. reflexivity.
    + apply Forall_app. split; [exact Hf|]. now rewrite <- Hprev.
  - split; [reflexivity|]. exists []. cbn. rewrite app_nil_r.
    split; [reflexivity|]. split; [reflexivity|constructor].
Qed.

End PreviousSolution.

(** C9.  The spatial adaptivity loop of a time step returns with
    [sln_time_prev] as it found it, every Runge-Kutta step of the loop was
    given that same previous solution, and the loop made no copy into it.
    In a completed time step the derefinement and the adaptivity loop are
    followed by exactly one copy, of the new time level solution into
    [sln_time_prev]; after it the two solution fields of the state are
    equal, so that nothing but that solution is carried to the next time
    step. *)
Theorem C9_previous_solution_is_framed `{H2D : Hermes2D} :
  forall (cfg : Transient.Config) n (st st' : Transient.State),
    (Transient.spatial_adaptivity_loop cfg n st = Ret tt st' ->
     Transient.sln_time_prev st' = Transient.sln_time_prev st
     /\ exists evs,
         Transient.trace st' = Transient.trace st ++ evs
         /\ count is_copy_prev evs = 0%nat
         /\ Forall (steps_from (Transient.sln_time_prev st)) evs)
    /\ (Transient.time_step_body cfg n st = Ret tt st' ->
        exists s evs,
          bind (Transient.periodic_derefinement cfg)
            (fun _ => Transient.spatial_adaptivity_loop cfg n) st = Ret tt s
          /\ Transient.sln_time_prev s = Transient.sln_time_prev st
          /\ Transient.trace s = Transient.trace st ++ evs
          /\ count is_copy_prev evs = 0%nat
          /\ Transient.trace st' = Transient.trace s ++ [EvCopyPrev (Transient.sln_time_new s)]
          /\ Transient.sln_time_prev st' = Transient.sln_time_new s
          /\ Transient.sln_time_new st' = Transient.sln_time_prev st').
Proof.
  intros cfg n st st'. split; [apply spatial_adaptivity_loop_events|].
  unfold Transient.time_step_body, bind at 1 3.
  rewrite periodic_derefinement_spec.
  set (st0 := if Transient.derefinement_due cfg (Transient.ts st) then _ else _).
  assert (H0 : Transient.sln_time_prev st0 = Transient.sln_time_prev st
               /\ exists evs0, Transient.trace st0 = Transient.trace st ++ evs0
                               /\ count is_copy_prev evs0 = 0%nat).
  { subst st0. destruct (Transient.derefinement_due cfg (Transient.ts st)).
    - split; [reflexivity|]. eexists. cbn. rewrite <- app_assoc.
      split; [reflexivity|reflexivity].
    - split; [reflexivity|]. exists []. now rewrite app_nil_r. }
  destruct H0 as (Hprev0 & evs0 & Htr0 & Hc0).
  unfold bind.
  destruct (Transient.spatial_adaptivity_loop cfg n st0) as [[] s|e s|] eqn:Hloop;
    try discriminate.
  intros Hadv.
  destruct (spatial_adaptivity_loop_events cfg n st0 s Hloop) as (Hprev & evs & Htr & Hc & _).
  destruct (advance_spec cfg s) as (s' & Hadv' & Hp & Hn & _ & _ & Htr').
  rewrite Hadv in Hadv'. inversion Hadv'; subst s'.
  exists s, (evs0 ++ evs). split; [reflexivity|].
  split; [congruence|]. split; [now rewrite Htr, Htr0, app_assoc|].
  split; [now rewrite count_app, Hc0, Hc|].
  split; [exact Htr'|]. split; [exact Hp|congruence].
Qed.

(** The first time step of the transient driver on the small instance. *)
Lemma C9_previous_solution_is_framed_witness :
  @Transient.time_step_body (Toy.lib Toy.refining) Runs.transient_cfg 5 Runs.transient_start
  = Ret tt Runs.transient_second
  /\ count (@is_copy_prev (Toy.lib Toy.refining))
       (@Transient.trace (Toy.lib Toy.refining) Runs.transient_second) = 1%nat
  /\ exists s,
      @Transient.sln_time_prev (Toy.lib Toy.refining) s
      = @Transient.sln_time_prev (Toy.lib Toy.refining) Runs.transient_start
      /\ @Transient.sln_time_prev (Toy.lib Toy.refining) Runs.transient_second
         = @Transient.sln_time_new (Toy.lib Toy.refining) s.
Proof.
  assert (Hrun : @Transient.time_step_body (Toy.lib Toy.refining) Runs.transient_cfg 5
                   Runs.transient_start = Ret tt Runs.transient_second) by evaluated.
  split; [exact Hrun|]. split; [evaluated|].
  destruct (proj2 (@C9_previous_solution_is_framed (Toy.lib Toy.refining)
                     Runs.transient_cfg 5%nat Runs.transient_start Runs.transient_second)
              Hrun) as (s & evs & _ & Hprev & _ & _ & _ & Hcopy & _).
  exists s. split; [exact Hprev|exact Hcopy].
Defined.

(** ** C4: when the mesh is derefined *)

(** C4, as amended.  The derefinement block runs before the spatial
    adaptivity loop of a time step exactly when the index of the time step
    is greater than 1 and a multiple of [UNREF_FREQ]: then the loop starts
    from the derefined state, whose space is the derefined working space
    with its degrees of freedom reassigned.  A time step of index 1, or of
    an index that is no multiple of [UNREF_FREQ], starts its loop from the
    state as it is.  With [UNREF_FREQ = 1] every time step but the first is
    preceded by a derefinement. *)
Theorem C4_derefinement_from_second_step `{H2D : Hermes2D} :
  forall (cfg : Transient.Config) n (st : Transient.State),
    (1 < Transient.ts st ->
     Z.rem (Transient.ts st) (Transient.UNREF_FREQ cfg) = 0 ->
     Transient.time_step_body cfg n st
     = bind (Transient.spatial_adaptivity_loop cfg n) (fun _ => Transient.advance cfg)
         (TransientView.derefined cfg st)
     /\ Transient.space (TransientView.derefined cfg st)
        = assign_dofs (Transient.derefine cfg (Transient.UNREF_METHOD cfg)
                         (Transient.basemesh st) (Transient.space st))
     /\ count is_derefine (Transient.trace (TransientView.derefined cfg st))
        = S (count is_derefine (Transient.trace st)))
    /\ (Transient.ts st <= 1 \/ Z.rem (Transient.ts st) (Transient.UNREF_FREQ cfg) <> 0 ->
        Transient.time_step_body cfg n st
        = bind (Transient.spatial_adaptivity_loop cfg n) (fun _ => Transient.advance cfg) st)
    /\ (Transient.UNREF_FREQ cfg = 1 ->
        Transient.derefinement_due cfg (Transient.ts st) = (1 <? Transient.ts st)).
Proof.
  intros cfg n st. split; [|split].
  - intros Hts Hrem. split; [|split].
    + unfold Transient.time_step_body, bind at 1.
      rewrite periodic_derefinement_spec.
      unfold Transient.derefinement_due.
      apply Z.ltb_lt in Hts. rewrite Hts, Hrem. reflexivity.
    + reflexivity.
    + change (Transient.trace (TransientView.derefined cfg st))
        with ((Transient.trace st ++ [EvInfo MsgGlobalDerefinement])
              ++ [EvDerefine (Transient.UNREF_METHOD cfg)
                    (assign_dofs (Transient.derefine cfg (Transient.UNREF_METHOD cfg)
                                    (Transient.basemesh st) (Transient.space st)))]).
      rewrite !count_app. cbn. lia.
  - intros Hno.
    unfold Transient.time_step_body, bind at 1.
    rewrite periodic_derefinement_spec.
    unfold Transient.derefinement_due.
    destruct Hno as [Hts|Hrem].
    + apply Z.ltb_ge in Hts. rewrite Hts. reflexivity.
    + apply Z.eqb_neq in Hrem. rewrite Hrem, andb_false_r. reflexivity.
  - intros HN. unfold Transient.derefinement_due. rewrite HN, Z.rem_1_r.
    apply andb_true_r.
Qed.

(** The second time step of the transient driver on the small instance
    starts its adaptivity loop from the derefined state. *)
Lemma C4_derefinement_from_second_step_witness :
  1 < @Transient.ts (Toy.lib Toy.refining) Runs.transient_second
  /\ Z.rem (@Transient.ts (Toy.lib Toy.refining) Runs.transient_second)
       (@Transient.UNREF_FREQ (Toy.lib Toy.refining) Runs.transient_cfg) = 0
  /\ @Transient.time_step_body (Toy.lib Toy.refining) Runs.transient_cfg 5
       Runs.transient_second
     = bind (@Transient.spatial_adaptivity_loop (Toy.lib Toy.refining) Runs.transient_cfg 5)
         (fun _ => @Transient.advance (Toy.lib Toy.refining) Runs.transient_cfg)
         (@TransientView.derefined (Toy.lib Toy.refining) Runs.transient_cfg
            Runs.transient_second).
Proof.
  assert (Hts : 1 < @Transient.ts (Toy.lib Toy.refining) Runs.transient_second)
    by reflexivity.
  assert (Hrem : Z.rem (@Transient.ts (Toy.lib Toy.refining) Runs.transient_second)
                   (@Transient.UNREF_FREQ (Toy.lib Toy.refining) Runs.transient_cfg) = 0)
    by reflexivity.
  split; [exact Hts|]. split; [exact Hrem|].
  exact (proj1 (proj1 (@C4_derefinement_from_second_step (Toy.lib Toy.refining)
                         Runs.transient_cfg 5%nat Runs.transient_second) Hts Hrem)).
Defined.

(** C4 as stated fails at the first time step: with the default
    [UNREF_FREQ = 1] the index 1 is a multiple of the frequency, yet the
    derefinement block leaves the state as it is, and the completed first
    time step has built reference spaces and derefined nothing. *)
Lemma C4_first_time_step_is_not_derefined :
  @Transient.ts (Toy.lib Toy.refining) Runs.transient_start = 1
  /\ Z.rem (@Transient.ts (Toy.lib Toy.refining) Runs.transient_start)
       (@Transient.UNREF_FREQ (Toy.lib Toy.refining) Runs.transient_cfg) = 0
  /\ @Transient.periodic_derefinement (Toy.lib Toy.refining) Runs.transient_cfg
       Runs.transient_start = Ret tt Runs.transient_start
  /\ @Transient.time_step_body (Toy.lib Toy.refining) Runs.transient_cfg 5
       Runs.transient_start = Ret tt Runs.transient_second
  /\ count (@is_derefine (Toy.lib Toy.refining))
       (@Transient.trace (Toy.lib Toy.refining) Runs.transient_second) = 0%nat
  /\ count (@is_ref_build (Toy.lib Toy.refining))
       (@Transient.trace (Toy.lib Toy.refining) Runs.transient_second) = 2%nat.
Proof.
  split; [reflexivity|]. split; [reflexivity|]. split; [reflexivity|].
  split; [evaluated|]. split; evaluated.
Qed.

(** ** C5: derefinement policy 3 and the base degree *)

Section BaseDegree.
Context `{H2D : Hermes2D}.
Variables dh dv hmin vmin : Z.

Lemma adjust_one_bounded o : bounded_order hmin vmin (adjust_one dh dv hmin vmin o).
Proof. unfold bounded_order, adjust_one. cbn. lia. Qed.

(** Adjusting further elements keeps an order that is already bounded. *)
Lemma adjust_fold_keeps ids : forall (sp : Space Mesh) id o,
  sp_edata sp !! id = Some o -> bounded_order hmin vmin o ->
  exists o',
    sp_edata (fold_left (adjust_step dh dv hmin vmin) ids sp) !! id = Some o'
    /\ bounded_order hmin vmin o'.
Proof.
  induction ids as [|a ids IH]; intros sp id o Hlook Hb; cbn; [eauto|].
  destruct (decide (a = id)) as [->|Hne].
  - eapply IH; [|apply adjust_one_bounded].
    unfold adjust_step, set_element_order_internal. cbn. apply lookup_insert_eq.
  - eapply IH; [|exact Hb].
    unfold adjust_step, set_element_order_internal. cbn.
    rewrite lookup_insert_ne by exact Hne. exact Hlook.
Qed.

(** Every adjusted element has a bounded order. *)
Lemma adjust_fold_bounded ids : forall (sp : Space Mesh) id,
  In id ids ->
  exists o,
    sp_edata (fold_left (adjust_step dh dv hmin vmin) ids sp) !! id = Some o
    /\ bounded_order hmin vmin o.
Proof.
  induction ids as [|a ids IH]; intros sp id Hin; [destruct Hin|].
  cbn. destruct (decide (a = id)) as [->|Hne].
  - eapply adjust_fold_keeps; [|apply adjust_one_bounded].
    unfold adjust_step, set_element_order_internal. cbn. apply lookup_insert_eq.
  - destruct Hin as [Heq|Hin]; [contradiction|]. now apply IH.
Qed.

Lemma adjust_fold_mesh ids : forall (sp : Space Mesh),
  sp_mesh (fold_left (adjust_step dh dv hmin vmin) ids sp) = sp_mesh sp.
Proof. induction ids as [|a ids IH]; intros sp; cbn; [reflexivity|]. now rewrite IH. Qed.

Lemma adjust_element_order_bounded (sp : Space Mesh) id :
  In id (active_elements (sp_mesh (adjust_element_order dh dv hmin vmin sp))) ->
  exists o,
    sp_edata (adjust_element_order dh dv hmin vmin sp) !! id = Some o
    /\ bounded_order hmin vmin o.
Proof.
  unfold adjust_element_order.
  rewrite adjust_fold_mesh. apply adjust_fold_bounded.
Qed.

End BaseDegree.

(** C5.  After derefinement policy 3 every active element of the working
    space has an order, and both components of it are at least [P_INIT];
    this is so for the space the policy returns and for the space of the
    state from which the adaptivity loop of the time step starts. *)
Theorem C5_policy3_keeps_base_degree `{H2D : Hermes2D} :
  forall (cfg : Transient.Config),
    (forall bm (sp : Space Mesh) id,
        In id (active_elements (sp_mesh (Transient.derefine cfg 3 bm sp))) ->
        exists o,
          sp_edata (Transient.derefine cfg 3 bm sp) !! id = Some o
          /\ order_at_least (Transient.P_INIT cfg) o)
    /\ (forall (st : Transient.State) id,
           Transient.UNREF_METHOD cfg = 3 ->
           In id (active_elements
                    (sp_mesh (Transient.space (TransientView.derefined cfg st)))) ->
           exists o,
             sp_edata (Transient.space (TransientView.derefined cfg st)) !! id = Some o
             /\ order_at_least (Transient.P_INIT cfg) o).
Proof.
  intros cfg.
  assert (H3 : forall bm (sp : Space Mesh) id,
             In id (active_elements (sp_mesh (Transient.derefine cfg 3 bm sp))) ->
             exists o,
               sp_edata (Transient.derefine cfg 3 bm sp) !! id = Some o
               /\ order_at_least (Transient.P_INIT cfg) o).
  { intros bm sp id.
    change (Transient.derefine cfg 3 bm sp)
      with (adjust_element_order (-1) (-1) (Transient.P_INIT cfg) (Transient.P_INIT cfg)
              (set_mesh (unrefine_all_elements (sp_mesh sp)) sp)).
    apply adjust_element_order_bounded. }
  split; [exact H3|].
  intros st id Hm. unfold TransientView.derefined. cbn. rewrite Hm. apply H3.
Qed.

(** Policy 3 on the space with orders (5,4), (2,2) and none, base degree 2:
    the coarser mesh has elements 0 and 1, with orders (4,3) and (2,2). *)
Lemma C5_policy3_keeps_base_degree_witness :
  In 0%nat (@active_elements (Toy.lib Toy.refining)
              (sp_mesh (@Transient.derefine (Toy.lib Toy.refining) Runs.transient_cfg 3
                          0%nat Runs.worn_space)))
  /\ sp_edata (@Transient.derefine (Toy.lib Toy.refining) Runs.transient_cfg 3
                 0%nat Runs.worn_space) !! 0%nat = Some (mkOrder 4 3)
  /\ sp_edata (@Transient.derefine (Toy.lib Toy.refining) Runs.transient_cfg 3
                 0%nat Runs.worn_space) !! 1%nat = Some (mkOrder 2 2)
  /\ exists o,
      sp_edata (@Transient.derefine (Toy.lib Toy.refining) Runs.transient_cfg 3
                  0%nat Runs.worn_space) !! 0%nat = Some o
      /\ order_at_least (@Transient.P_INIT (Toy.lib Toy.refining) Runs.transient_cfg) o.
Proof.
  assert (Hin : In 0%nat (@active_elements (Toy.lib Toy.refining)
                  (sp_mesh (@Transient.derefine (Toy.lib Toy.refining) Runs.transient_cfg 3
                              0%nat Runs.worn_space)))) by (cbn; auto).
  split; [exact Hin|]. split; [evaluated|]. split; [evaluated|].
  exact (proj1 (@C5_policy3_keeps_base_degree (Toy.lib Toy.refining) Runs.transient_cfg)
           0%nat Runs.worn_space 0%nat Hin).
Defined.

(** * Further properties of the drivers *)

(** ** Loops, once more *)

Section MoreLoops.
Context {St : Type}.
Implicit Types (body : M St unit) (cond : St -> bool).

(** An invariant that needs to hold only where the body is entered: at the
    start, and after every step that leaves the condition true. *)
Lemma do_while_invariant_cond (P Q : St -> Prop) n body cond :
  (forall s s1, P s -> body s = Ret tt s1 -> Q s1) ->
  (forall s, Q s -> cond s = true -> P s) ->
  forall s s', P s -> do_while n body cond s = Ret tt s' -> Q s'.
Proof.
  intros Hstep Hcont. induction n as [|n IH]; intros s s' HP Hn; [discriminate|].
  cbn in Hn. unfold bind in Hn.
  destruct (body s) as [[] s1| |] eqn:Hb; try discriminate.
  destruct (cond s1) eqn:Hc.
  - apply (IH s1 s'); [|exact Hn]. apply Hcont; [|exact Hc]. eapply Hstep; eauto.
  - inversion Hn; subst. eauto.
Qed.

End MoreLoops.

(** ** The static driver: one step, all of it *)

Section HcurlStep.
Context `{H2D : Hermes2D}.
Import Hcurl HcurlView.
Variable cfg : Config.

Lemma hcurl_step_spec (st st1 : State) :
  adapt_step cfg st = Ret tt st1 ->
  newton_space st1 = ref_space_of (space st)
  /\ newton_sln_vector st1 = fst (solve_result st)
  /\ ref_sln st1 = ref_sln_of st
  /\ sln st1 = sln_of st
  /\ graph_dof_est st1 = graph_dof_est st ++ [(get_num_dofs (space st), err_est_of st)]
  /\ graph_dof_exact st1
     = graph_dof_exact st ++ [(get_num_dofs (space st), err_exact_of st)]
  /\ exists tail,
      trace st1 = trace st ++ estimate_events cfg st ++ tail
      /\ ((dlt (err_est_of st) (ERR_STOP cfg) = true
           /\ tail = [] /\ space st1 = space st /\ as_ st1 = as_ st /\ done st1 = true)
          \/ (dlt (err_est_of st) (ERR_STOP cfg) = false
              /\ exists sp' d,
                  lib_adapt (space st) (Some (elem_errors_of st)) = (sp', d)
                  /\ tail = [EvAdapt (space st) sp' d]
                  /\ space st1 = sp'
                  /\ as_ st1 = (if d then as_ st else as_ st + 1)
                  /\ done st1 = d || (NDOF_STOP cfg <=? get_num_dofs sp'))).
Proof.
  intros Hs. apply adapt_step_split in Hs as (ad & err & s0 & He & Hd).
  destruct (estimate_spec cfg st)
    as (s0' & He' & Hsp & Hdn & Has & _ & Hns & Hnv & Hrs & Hsl & Hg & Hgx & _ & _ & Htr).
  rewrite He in He'. inversion He'; subst ad err s0'.
  destruct (decide_spec cfg (mkAdapt (space st) (Some (elem_errors_of st)))
              (err_est_of st) s0)
    as (s1' & Hd' & (Hsl1 & Hrs1 & _ & Hns1 & Hnv1 & Hg1 & Hgx1 & _) & Hconv & Hrefine & _).
  rewrite Hd in Hd'. inversion Hd'; subst s1'.
  repeat (split; [congruence|]).
  destruct (dlt (err_est_of st) (ERR_STOP cfg)) eqn:Herr.
  - destruct (Hconv eq_refl) as (Hsp1 & Htr1 & Has1 & Hdone).
    exists []. rewrite app_nil_r. split; [congruence|]. left.
    repeat split; congruence.
  - destruct (lib_adapt (space s0) (Some (elem_errors_of st))) as [sp' d] eqn:Ha.
    destruct (Hrefine eq_refl sp' d Ha) as (Hsp1 & Htr1 & Has1 & Hdone).
    exists [EvAdapt (space st) sp' d]. split.
    + rewrite Htr1, Htr, <- app_assoc, Hsp. reflexivity.
    + right. split; [reflexivity|]. exists sp', d. rewrite <- Hsp.
      repeat split; try congruence. now rewrite Has1, Has.
Qed.

Lemma hcurl_estimate_counts (st : State) :
  count is_ref_build (estimate_events cfg st) = 1%nat
  /\ count is_adapt (estimate_events cfg st) = 0%nat
  /\ count is_refinement (estimate_events cfg st) = 0%nat
  /\ coarse_dofs (estimate_events cfg st) = [get_num_dofs (space st)].
Proof.
  unfold estimate_events.
  destruct (snd (solve_result st)), (HERMES_VISUALIZATION cfg); repeat split; reflexivity.
Qed.

End HcurlStep.

(** ** The transient driver: one step of the spatial loop, all of it *)

Section TransientStep.
Context `{H2D : Hermes2D}.
Import Transient TransientView.
Variable cfg : Config.

Lemma transient_step_spec (st st1 : State) :
  adapt_step cfg st = Ret tt st1 ->
  basemesh st1 = basemesh st
  /\ ndof_coarse st1 = ndof_coarse st
  /\ sln_time_prev st1 = sln_time_prev st
  /\ sln_time_new st1 = new_sln_of cfg st
  /\ current_time st1 = current_time st
  /\ ts st1 = ts st
  /\ exists tail,
      trace st1 = trace st ++ estimate_events cfg st ++ tail
      /\ ((dlt (err_est_of cfg st) (ERR_STOP cfg) = true
           /\ tail = [EvShow "Solution"; EvShow "Mesh"]
           /\ space st1 = space st /\ as_ st1 = as_ st /\ done st1 = true)
          \/ (dlt (err_est_of cfg st) (ERR_STOP cfg) = false
              /\ exists sp' d,
                  lib_adapt (space st) (Some (elem_errors_of cfg st)) = (sp', d)
                  /\ tail = [EvInfo MsgAdapting; EvAdapt (space st) sp' d;
                             EvShow "Solution"; EvShow "Mesh"]
                  /\ space st1 = sp'
                  /\ as_ st1 = (if NDOF_STOP cfg <=? get_num_dofs sp'
                                then as_ st else as_ st + 1)
                  /\ done st1 = d || (NDOF_STOP cfg <=? get_num_dofs sp'))).
Proof.
  intros Hs. apply t_adapt_step_split in Hs as (ad & err & s0 & He & Hd).
  destruct (t_estimate_spec cfg st)
    as (s0' & He' & Hsp & Hbm & Hnc & Hprev & Hnew & Hct & Hts & Has & Hdn & Htr).
  rewrite He in He'. inversion He'; subst ad err s0'.
  destruct (t_decide_spec cfg (mkAdapt (space st) (Some (elem_errors_of cfg st)))
              (err_est_of cfg st) s0)
    as (s1' & Hd' & (Hbm1 & Hnc1 & Hprev1 & Hnew1 & Hct1 & Hts1) & Hconv & Hrefine & _).
  rewrite Hd in Hd'. inversion Hd'; subst s1'.
  repeat (split; [congruence|]).
  destruct (dlt (err_est_of cfg st) (ERR_STOP cfg)) eqn:Herr.
  - destruct (Hconv eq_refl) as (Hsp1 & Htr1 & Has1 & Hdone).
    eexists. split; [rewrite Htr1, Htr, <- app_assoc; reflexivity|]. left.
    repeat split; congruence.
  - destruct (lib_adapt (space s0) (Some (elem_errors_of cfg st))) as [sp' d] eqn:Ha.
    destruct (Hrefine eq_refl sp' d Ha) as (Hsp1 & Htr1 & Has1 & Hdone).
    eexists. split.
    + rewrite Htr1, Htr, <- app_assoc, Hsp. reflexivity.
    + right. split; [reflexivity|]. exists sp', d. rewrite <- Hsp.
      repeat split; try congruence. now rewrite Has1, Has.
Qed.

Lemma transient_estimate_counts (st : State) :
  count is_ref_build (estimate_events cfg st) = 1%nat
  /\ count is_adapt (estimate_events cfg st) = 0%nat
  /\ count is_copy_prev (estimate_events cfg st) = 0%nat
  /\ count is_derefine (estimate_events cfg st) = 0%nat
  /\ step_lines (estimate_events cfg st) = [(ts st, as_ st)]
  /\ Forall (rk_at (current_time st) (time_step cfg)) (estimate_events cfg st).
Proof.
  unfold estimate_events.
  destruct (snd (rk_result cfg st)); cbn;
    repeat (split; [reflexivity|]); repeat constructor.
Qed.

End TransientStep.

(** ** Why the loops stop, and what a step does at the boundaries *)

(** X1.  When the adaptivity loop of either driver returns, [done] is set,
    and in its last step the error estimate was below [ERR_STOP], or the
    Candidate Selector reported that nothing was refined, or the working
    space is at or above [NDOF_STOP]. *)
Theorem X1_loop_exit_reasons `{H2D : Hermes2D} :
  (forall (cfg : Hcurl.Config) n (st st' : Hcurl.State),
      Hcurl.adaptivity_loop cfg n st = Ret tt st' ->
      Hcurl.done st' = true
      /\ exists s,
          Hcurl.adapt_step cfg s = Ret tt st'
          /\ (dlt (HcurlView.err_est_of s) (Hcurl.ERR_STOP cfg) = true
              \/ lib_adapt (Hcurl.space s) (Some (HcurlView.elem_errors_of s))
                 = (Hcurl.space st', true)
              \/ Hcurl.NDOF_STOP cfg <= get_num_dofs (Hcurl.space st')))
  /\ (forall (cfg : Transient.Config) n (st st' : Transient.State),
      Transient.spatial_adaptivity_loop cfg n st = Ret tt st' ->
      Transient.done st' = true
      /\ exists s,
          Transient.adapt_step cfg s = Ret tt st'
          /\ (dlt (TransientView.err_est_of cfg s) (Transient.ERR_STOP cfg) = true
              \/ lib_adapt (Transient.space s) (Some (TransientView.elem_errors_of cfg s))
                 = (Transient.space st', true)
              \/ Transient.NDOF_STOP cfg <= get_num_dofs (Transient.space st'))).
Proof.
  split; intros cfg n st st' Hrun.
  - apply do_while_last in Hrun as (s & Hs & Hc).
    apply negb_false_iff in Hc. split; [exact Hc|]. exists s. split; [exact Hs|].
    destruct (hcurl_step_spec cfg s st' Hs)
      as (_ & _ & _ & _ & _ & _ & tail & _ & [(Herr & _)|(Herr & sp' & d & Ha & _ & Hsp & _ & Hd)]).
    + now left.
    + right. rewrite Hc in Hd. symmetry in Hd. apply orb_true_iff in Hd as [->|Hceil].
      * left. now rewrite Hsp.
      * right. rewrite Hsp. now apply Z.leb_le.
  - apply do_while_last in Hrun as (s & Hs & Hc).
    apply negb_false_iff in Hc. split; [exact Hc|]. exists s. split; [exact Hs|].
    destruct (transient_step_spec cfg s st' Hs)
      as (_ & _ & _ & _ & _ & _ & tail & _ & [(Herr & _)|(Herr & sp' & d & Ha & _ & Hsp & _ & Hd)]).
    + now left.
    + right. rewrite Hc in Hd. symmetry in Hd. apply orb_true_iff in Hd as [->|Hceil].
      * left. now rewrite Hsp.
      * right. rewrite Hsp. now apply Z.leb_le.
Qed.

(** The run of the static driver on the small instance ends at the
    ceiling. *)
Lemma X1_loop_exit_reasons_witness :
  @Hcurl.adaptivity_loop (Toy.lib Toy.refining) Runs.hcurl_cfg 5 Runs.hcurl_start
  = Ret tt Runs.hcurl_final
  /\ @Hcurl.done (Toy.lib Toy.refining) Runs.hcurl_final = true
  /\ @Hcurl.NDOF_STOP (Toy.lib Toy.refining) Runs.hcurl_cfg
     <= @get_num_dofs (Toy.lib Toy.refining)
          (@Hcurl.space (Toy.lib Toy.refining) Runs.hcurl_final).
Proof.
  assert (Hrun : @Hcurl.adaptivity_loop (Toy.lib Toy.refining) Runs.hcurl_cfg 5
                   Runs.hcurl_start = Ret tt Runs.hcurl_final) by evaluated.
  split; [exact Hrun|]. split.
  - exact (proj1 (proj1 (@X1_loop_exit_reasons (Toy.lib Toy.refining))
                    Runs.hcurl_cfg 5%nat Runs.hcurl_start Runs.hcurl_final Hrun)).
  - discriminate.
Defined.

(** X2.  A step of either driver whose error estimate is below [ERR_STOP]
    is the last one, does not call the Candidate Selector and leaves the
    working space and the step counter as they are; it has built one
    reference space. *)
Theorem X2_converged_step_refines_nothing `{H2D : Hermes2D} :
  (forall (cfg : Hcurl.Config) (st : Hcurl.State),
      dlt (HcurlView.err_est_of st) (Hcurl.ERR_STOP cfg) = true ->
      exists st1 evs,
        (forall n, Hcurl.adaptivity_loop cfg (S n) st = Ret tt st1)
        /\ Hcurl.space st1 = Hcurl.space st
        /\ Hcurl.as_ st1 = Hcurl.as_ st
        /\ Hcurl.trace st1 = Hcurl.trace st ++ evs
        /\ count is_adapt evs = 0%nat
        /\ count is_ref_build evs = 1%nat)
  /\ (forall (cfg : Transient.Config) (st : Transient.State),
      dlt (TransientView.err_est_of cfg st) (Transient.ERR_STOP cfg) = true ->
      exists st1 evs,
        (forall n, do_while (S n) (Transient.adapt_step cfg)
                     (fun s => negb (Transient.done s)) st = Ret tt st1)
        /\ Transient.space st1 = Transient.space st
        /\ Transient.as_ st1 = Transient.as_ st
        /\ Transient.trace st1 = Transient.trace st ++ evs
        /\ count is_adapt evs = 0%nat
        /\ count is_ref_build evs = 1%nat).
Proof.
  split; intros cfg st Herr.
  - destruct (adapt_step_ret cfg st) as (st1 & Hs).
    destruct (hcurl_step_spec cfg st st1 Hs)
      as (_ & _ & _ & _ & _ & _ & tail & Htr
          & [(_ & -> & Hsp & Has & Hd)|(Herr' & _)]); [|congruence].
    destruct (hcurl_estimate_counts cfg st) as (Hrb & Had & _).
    exists st1, (HcurlView.estimate_events cfg st). rewrite app_nil_r in Htr.
    split; [|repeat split; assumption].
    intros n. apply do_while_exit; [exact Hs|]. now rewrite Hd.
  - destruct (t_adapt_step_ret cfg st) as (st1 & Hs).
    destruct (transient_step_spec cfg st st1 Hs)
      as (_ & _ & _ & _ & _ & _ & tail & Htr
          & [(_ & -> & Hsp & Has & Hd)|(Herr' & _)]); [|congruence].
    destruct (transient_estimate_counts cfg st) as (Hrb & Had & _).
    exists st1, (TransientView.estimate_events cfg st
                 ++ [EvShow "Solution"; EvShow "Mesh"]).
    split; [|split; [exact Hsp|split; [exact Has|split; [exact Htr|]]]].
    + intros n. apply do_while_exit; [exact Hs|]. now rewrite Hd.
    + rewrite !count_app, Hrb, Had. split; reflexivity.
Qed.

(** On the small instance with an error estimate of 0.5 % the first step
    of the static driver is the only one. *)
Lemma X2_converged_step_refines_nothing_witness :
  @dlt (Toy.lib Toy.accurate)
    (@HcurlView.err_est_of (Toy.lib Toy.accurate) Runs.accurate_start)
    (@Hcurl.ERR_STOP (Toy.lib Toy.accurate) Runs.accurate_cfg) = true
  /\ exists st1,
      (forall n, @Hcurl.adaptivity_loop (Toy.lib Toy.accurate) Runs.accurate_cfg (S n)
                   Runs.accurate_start = Ret tt st1)
      /\ @Hcurl.space (Toy.lib Toy.accurate) st1
         = @Hcurl.space (Toy.lib Toy.accurate) Runs.accurate_start.
Proof.
  assert (Herr : @dlt (Toy.lib Toy.accurate)
                   (@HcurlView.err_est_of (Toy.lib Toy.accurate) Runs.accurate_start)
                   (@Hcurl.ERR_STOP (Toy.lib Toy.accurate) Runs.accurate_cfg) = true)
    by evaluated.
  split; [exact Herr|].
  destruct (proj1 (@X2_converged_step_refines_nothing (Toy.lib Toy.accurate))
              Runs.accurate_cfg Runs.accurate_start Herr)
    as (st1 & evs & Hloop & Hsp & _).
  exists st1. split; [exact Hloop|exact Hsp].
Defined.

(** X3.  The ceiling is tested after the refinement.  A step of either
    driver that starts with the working space at or above [NDOF_STOP] and
    an error estimate not below [ERR_STOP] still calls the Candidate
    Selector once and takes over the space it returns; with a selector that
    never coarsens, that step is the last. *)
Theorem X3_ceiling_is_tested_after_refinement `{H2D : Hermes2D} :
  adapt_never_coarsens ->
  (forall (cfg : Hcurl.Config) (st : Hcurl.State),
      Hcurl.NDOF_STOP cfg <= get_num_dofs (Hcurl.space st) ->
      dlt (HcurlView.err_est_of st) (Hcurl.ERR_STOP cfg) = false ->
      exists st1 evs,
        (forall n, Hcurl.adaptivity_loop cfg (S n) st = Ret tt st1)
        /\ Hcurl.space st1
           = fst (lib_adapt (Hcurl.space st) (Some (HcurlView.elem_errors_of st)))
        /\ Hcurl.trace st1 = Hcurl.trace st ++ evs
        /\ count is_adapt evs = 1%nat)
  /\ (forall (cfg : Transient.Config) (st : Transient.State),
      Transient.NDOF_STOP cfg <= get_num_dofs (Transient.space st) ->
      dlt (TransientView.err_est_of cfg st) (Transient.ERR_STOP cfg) = false ->
      exists st1 evs,
        (forall n, do_while (S n) (Transient.adapt_step cfg)
                     (fun s => negb (Transient.done s)) st = Ret tt st1)
        /\ Transient.space st1
           = fst (lib_adapt (Transient.space st)
                    (Some (TransientView.elem_errors_of cfg st)))
        /\ Transient.trace st1 = Transient.trace st ++ evs
        /\ count is_adapt evs = 1%nat).
Proof.
  intros Hmono. split; intros cfg st Hceil Herr.
  - destruct (adapt_step_ret cfg st) as (st1 & Hs).
    destruct (hcurl_step_spec cfg st st1 Hs)
      as (_ & _ & _ & _ & _ & _ & tail & Htr
          & [(Herr' & _)|(_ & sp' & d & Ha & -> & Hsp & _ & Hd)]); [congruence|].
    destruct (hcurl_estimate_counts cfg st) as (_ & Had & _).
    pose proof (Hmono (Hcurl.space st) (Some (HcurlView.elem_errors_of st))) as Hge.
    rewrite Ha in Hge |- *. cbn in Hge |- *.
    exists st1, (HcurlView.estimate_events cfg st ++ [EvAdapt (Hcurl.space st) sp' d]).
    split; [|split; [exact Hsp|split; [exact Htr|]]].
    + intros n. apply do_while_exit; [exact Hs|].
      rewrite Hd. apply negb_false_iff, orb_true_iff. right. apply Z.leb_le. lia.
    + rewrite count_app, Had. reflexivity.
  - destruct (t_adapt_step_ret cfg st) as (st1 & Hs).
    destruct (transient_step_spec cfg st st1 Hs)
      as (_ & _ & _ & _ & _ & _ & tail & Htr
          & [(Herr' & _)|(_ & sp' & d & Ha & -> & Hsp & _ & Hd)]); [congruence|].
    destruct (transient_estimate_counts cfg st) as (_ & Had & _).
    pose proof (Hmono (Transient.space st) (Some (TransientView.elem_errors_of cfg st)))
      as Hge.
    rewrite Ha in Hge |- *. cbn in Hge |- *.
    eexists st1, _. split; [|split; [exact Hsp|split; [exact Htr|]]].
    + intros n. apply do_while_exit; [exact Hs|].
      rewrite Hd. apply negb_false_iff, orb_true_iff. right. apply Z.leb_le. lia.
    + rewrite count_app, Had. reflexivity.
Qed.

(** The static driver on the small instance, started with 6 degrees of
    freedom and ceiling 6, ends its only step with 10. *)
Lemma X3_ceiling_is_tested_after_refinement_witness :
  @adapt_never_coarsens (Toy.lib Toy.refining)
  /\ @Hcurl.NDOF_STOP (Toy.lib Toy.refining) MoreRuns.low_cfg
     <= @get_num_dofs (Toy.lib Toy.refining)
          (@Hcurl.space (Toy.lib Toy.refining) MoreRuns.low_start)
  /\ @dlt (Toy.lib Toy.refining)
       (@HcurlView.err_est_of (Toy.lib Toy.refining) MoreRuns.low_start)
       (@Hcurl.ERR_STOP (Toy.lib Toy.refining) MoreRuns.low_cfg) = false
  /\ exists st1,
      (forall n, @Hcurl.adaptivity_loop (Toy.lib Toy.refining) MoreRuns.low_cfg (S n)
                   MoreRuns.low_start = Ret tt st1)
      /\ @get_num_dofs (Toy.lib Toy.refining) (@Hcurl.space (Toy.lib Toy.refining) st1)
         = 10.
Proof.
  assert (Hmono : @adapt_never_coarsens (Toy.lib Toy.refining)).
  { intros sp errs. unfold get_num_dofs. cbn. lia. }
  assert (Hceil : @Hcurl.NDOF_STOP (Toy.lib Toy.refining) MoreRuns.low_cfg
                  <= @get_num_dofs (Toy.lib Toy.refining)
                       (@Hcurl.space (Toy.lib Toy.refining) MoreRuns.low_start))
    by discriminate.
  assert (Herr : @dlt (Toy.lib Toy.refining)
                   (@HcurlView.err_est_of (Toy.lib Toy.refining) MoreRuns.low_start)
                   (@Hcurl.ERR_STOP (Toy.lib Toy.refining) MoreRuns.low_cfg) = false)
    by evaluated.
  split; [exact Hmono|]. split; [exact Hceil|]. split; [exact Herr|].
  destruct (proj1 (@X3_ceiling_is_tested_after_refinement (Toy.lib Toy.refining) Hmono)
              MoreRuns.low_cfg MoreRuns.low_start Hceil Herr)
    as (st1 & evs & Hloop & Hsp & _).
  exists st1. split; [exact Hloop|]. rewrite Hsp. reflexivity.
Defined.

(** ** The static driver: what a run leaves behind *)

Section HcurlHistory.
Context `{H2D : Hermes2D}.
Import Hcurl HcurlView.
Variable cfg : Config.

Lemma coarse_dofs_app (tr evs : list Event) :
  coarse_dofs (tr ++ evs) = coarse_dofs tr ++ coarse_dofs evs.
Proof. unfold coarse_dofs. apply flat_map_app. Qed.

(** The graphs, the trace and the step counter at the end of a run,
    relative to its start. *)
Lemma hcurl_loop_history n (st st' : State) :
  adaptivity_loop cfg n st = Ret tt st' ->
  exists evs es ex,
    trace st' = trace st ++ evs
    /\ graph_dof_est st' = graph_dof_est st ++ es
    /\ graph_dof_exact st' = graph_dof_exact st ++ ex
    /\ map fst es = coarse_dofs evs
    /\ map fst ex = coarse_dofs evs
    /\ length (coarse_dofs evs) = count is_ref_build evs
    /\ as_ st' = as_ st + Z.of_nat (count is_refinement evs)
    /\ (1 <= count is_ref_build evs)%nat
    /\ (count is_refinement evs <= count is_ref_build evs)%nat
    /\ (count is_ref_build evs <= S (count is_refinement evs))%nat.
Proof.
  intros Hrun.
  pose (R := fun (s : State) (evs : list Event) (es ex : SimpleGraph) =>
               trace s = trace st ++ evs
               /\ graph_dof_est s = graph_dof_est st ++ es
               /\ graph_dof_exact s = graph_dof_exact st ++ ex
               /\ map fst es = coarse_dofs evs
               /\ map fst ex = coarse_dofs evs
               /\ length (coarse_dofs evs) = count is_ref_build evs
               /\ as_ s = as_ st + Z.of_nat (count is_refinement evs)).
  assert (HQ : exists evs es ex,
             R st' evs es ex
             /\ (1 <= count is_ref_build evs)%nat
             /\ (count is_refinement evs <= count is_ref_build evs)%nat
             /\ (count is_ref_build evs <= S (count is_refinement evs))%nat
             /\ (done st' = false -> count is_refinement evs = count is_ref_build evs)).
  { revert Hrun.
    apply (do_while_invariant_cond
             (fun s => exists evs es ex,
                  R s evs es ex /\ count is_refinement evs = count is_ref_build evs)
             (fun s => exists evs es ex,
                  R s evs es ex
                  /\ (1 <= count is_ref_build evs)%nat
                  /\ (count is_refinement evs <= count is_ref_build evs)%nat
                  /\ (count is_ref_build evs <= S (count is_refinement evs))%nat
                  /\ (done s = false ->
                      count is_refinement evs = count is_ref_build evs))).
    - intros s s1 (evs & es & ex & (Htr & Hg & Hgx & Hes & Hex & Hlen & Has) & Heq) Hs.
      destruct (hcurl_step_spec cfg s s1 Hs)
        as (_ & _ & _ & _ & Hg1 & Hgx1 & tail & Htr1 & Hcase).
      destruct (hcurl_estimate_counts cfg s) as (Hrb & _ & Hrf & Hcd).
      exists (evs ++ estimate_events cfg s ++ tail),
        (es ++ [(get_num_dofs (space s), err_est_of s)]),
        (ex ++ [(get_num_dofs (space s), err_exact_of s)]).
      assert (Htail : coarse_dofs tail = [] /\ count is_ref_build tail = 0%nat
                      /\ as_ s1 = as_ s + Z.of_nat (count is_refinement tail)
                      /\ (count is_refinement tail <= 1)%nat
                      /\ (done s1 = false -> count is_refinement tail = 1%nat)).
      { destruct Hcase as [(_ & -> & _ & Has1 & Hd)|(_ & sp' & d & _ & -> & _ & Has1 & Hd)].
        - cbn. repeat split; try lia. congruence.
        - destruct d; cbn in *; repeat split; try lia; congruence. }
      destruct Htail as (Hcd_t & Hrb_t & Has_t & Hle_t & Hdone_t).
      unfold R. rewrite !coarse_dofs_app, !count_app, !map_app, Hcd, Hcd_t, Hrb, Hrb_t, Hrf.
      rewrite app_nil_r, length_app. cbn [map fst length].
      split; [|repeat split; try lia; intros Hd; specialize (Hdone_t Hd); lia].
      repeat split.
      + rewrite Htr1, Htr, <- app_assoc. reflexivity.
      + rewrite Hg1, Hg, <- app_assoc. reflexivity.
      + rewrite Hgx1, Hgx, <- app_assoc. reflexivity.
      + now rewrite Hes.
      + now rewrite Hex.
      + lia.
      + lia.
    - intros s (evs & es & ex & HR & _ & _ & _ & Heq) Hc.
      exists evs, es, ex. split; [exact HR|]. apply Heq. now apply negb_true_iff in Hc.
    - exists [], [], []. unfold R. rewrite !app_nil_r. cbn. repeat split; lia. }
  destruct HQ as (evs & es & ex & (Htr & Hg & Hgx & Hes & Hex & Hlen & Has) & H1 & H2 & H3 & _).
  exists evs, es, ex. repeat split; assumption.
Qed.

End HcurlHistory.

(** X4.  A run of the static adaptivity loop appends to the graph of the
    estimated error and to the graph of the exact error, leaving what was
    there in place; it appends one pair per reference space built, at least
    one, and the first column of both is the list of DOF counts of the
    working spaces from which the reference spaces were built. *)
Theorem X4_dof_graphs_one_entry_per_step `{H2D : Hermes2D} :
  forall (cfg : Hcurl.Config) n (st st' : Hcurl.State),
    Hcurl.adaptivity_loop cfg n st = Ret tt st' ->
    exists evs es ex,
      Hcurl.trace st' = Hcurl.trace st ++ evs
      /\ Hcurl.graph_dof_est st' = Hcurl.graph_dof_est st ++ es
      /\ Hcurl.graph_dof_exact st' = Hcurl.graph_dof_exact st ++ ex
      /\ map fst es = coarse_dofs evs
      /\ map fst ex = coarse_dofs evs
      /\ length es = count is_ref_build evs
      /\ length ex = count is_ref_build evs
      /\ (1 <= length es)%nat.
Proof.
  intros cfg n st st' Hrun.
  destruct (hcurl_loop_history cfg n st st' Hrun)
    as (evs & es & ex & Htr & Hg & Hgx & Hes & Hex & Hlen & _ & H1 & _).
  exists evs, es, ex.
  assert (Hl : length es = count is_ref_build evs)
    by (rewrite <- Hlen, <- Hes; now rewrite length_map).
  assert (Hlx : length ex = count is_ref_build evs)
    by (rewrite <- Hlen, <- Hex; now rewrite length_map).
  repeat split; try assumption. lia.
Qed.

(** The run of the static driver on the small instance: two steps, from
    working spaces with 6 and 10 degrees of freedom. *)
Lemma X4_dof_graphs_one_entry_per_step_witness :
  @Hcurl.adaptivity_loop (Toy.lib Toy.refining) Runs.hcurl_cfg 5 Runs.hcurl_start
  = Ret tt Runs.hcurl_final
  /\ map fst (@Hcurl.graph_dof_est (Toy.lib Toy.refining) Runs.hcurl_final) = [6; 10]
  /\ exists evs es,
      @Hcurl.graph_dof_est (Toy.lib Toy.refining) Runs.hcurl_final
      = @Hcurl.graph_dof_est (Toy.lib Toy.refining) Runs.hcurl_start ++ es
      /\ length es = count (@is_ref_build (Toy.lib Toy.refining)) evs.
Proof.
  assert (Hrun : @Hcurl.adaptivity_loop (Toy.lib Toy.refining) Runs.hcurl_cfg 5
                   Runs.hcurl_start = Ret tt Runs.hcurl_final) by evaluated.
  split; [exact Hrun|]. split; [reflexivity|].
  destruct (@X4_dof_graphs_one_entry_per_step (Toy.lib Toy.refining)
              Runs.hcurl_cfg 5%nat Runs.hcurl_start Runs.hcurl_final Hrun)
    as (evs & es & ex & _ & Hg & _ & _ & _ & Hl & _).
  exists evs, es. split; [exact Hg|exact Hl].
Defined.

(** X6.  The step counter of the static driver grows by one with every
    call of the Candidate Selector that refined something, and by nothing
    else: at the end of a run it has grown by the number of steps, or by
    one less when the last step refined nothing. *)
Theorem X6_step_counter_counts_refinements `{H2D : Hermes2D} :
  forall (cfg : Hcurl.Config) n (st st' : Hcurl.State),
    Hcurl.adaptivity_loop cfg n st = Ret tt st' ->
    exists evs,
      Hcurl.trace st' = Hcurl.trace st ++ evs
      /\ Hcurl.as_ st' = Hcurl.as_ st + Z.of_nat (count is_refinement evs)
      /\ (count is_refinement evs <= count is_ref_build evs)%nat
      /\ (count is_ref_build evs <= S (count is_refinement evs))%nat.
Proof.
  intros cfg n st st' Hrun.
  destruct (hcurl_loop_history cfg n st st' Hrun)
    as (evs & es & ex & Htr & _ & _ & _ & _ & _ & Has & _ & H2 & H3).
  exists evs. repeat split; assumption.
Qed.

(** The run of the static driver on the small instance: two steps, both
    refined, the counter went from 1 to 3. *)
Lemma X6_step_counter_counts_refinements_witness :
  @Hcurl.adaptivity_loop (Toy.lib Toy.refining) Runs.hcurl_cfg 5 Runs.hcurl_start
  = Ret tt Runs.hcurl_final
  /\ @Hcurl.as_ (Toy.lib Toy.refining) Runs.hcurl_start = 1
  /\ @Hcurl.as_ (Toy.lib Toy.refining) Runs.hcurl_final = 3
  /\ exists evs,
      @Hcurl.as_ (Toy.lib Toy.refining) Runs.hcurl_final
      = @Hcurl.as_ (Toy.lib Toy.refining) Runs.hcurl_start
        + Z.of_nat (count (@is_refinement (Toy.lib Toy.refining)) evs).
Proof.
  assert (Hrun : @Hcurl.adaptivity_loop (Toy.lib Toy.refining) Runs.hcurl_cfg 5
                   Runs.hcurl_start = Ret tt Runs.hcurl_final) by evaluated.
  split; [exact Hrun|]. split; [reflexivity|]. split; [reflexivity|].
  destruct (@X6_step_counter_counts_refinements (Toy.lib Toy.refining)
              Runs.hcurl_cfg 5%nat Runs.hcurl_start Runs.hcurl_final Hrun)
    as (evs & _ & Has & _).
  exists evs. exact Has.
Defined.

Section DofColumn.
Context `{H2D : Hermes2D}.
Import Hcurl HcurlView.
Variable cfg : Config.
Hypothesis Hmono : adapt_never_coarsens.

Lemma StronglySorted_snoc (l : list Z) (x : Z) :
  StronglySorted Z.le l -> Forall (fun y => y <= x) l -> StronglySorted Z.le (l ++ [x]).
Proof.
  induction l as [|a l IH]; intros Hs Hf; cbn.
  - repeat constructor.
  - apply StronglySorted_inv in Hs as (Hs & Ha).
    apply Forall_cons in Hf as (Hax & Hf).
    constructor; [now apply IH|].
    apply Forall_app. split; [exact Ha|]. now constructor.
Qed.

(** A step does not lower the DOF count of the working space. *)
Lemma hcurl_step_dofs (s s1 : State) :
  adapt_step cfg s = Ret tt s1 ->
  get_num_dofs (space s) <= get_num_dofs (space s1).
Proof.
  intros Hs.
  destruct (hcurl_step_spec cfg s s1 Hs)
    as (_ & _ & _ & _ & _ & _ & tail & _
        & [(_ & _ & -> & _)|(_ & sp' & d & Ha & _ & -> & _)]); [lia|].
  pose proof (Hmono (space s) (Some (elem_errors_of s))) as Hge.
  now rewrite Ha in Hge.
Qed.

Lemma hcurl_dof_column_sorted n (st st' : State) :
  adaptivity_loop cfg n st = Ret tt st' ->
  exists es,
    graph_dof_est st' = graph_dof_est st ++ es
    /\ StronglySorted Z.le (map fst es)
    /\ Forall (fun x => get_num_dofs (space st) <= x <= get_num_dofs (space st'))
         (map fst es).
Proof.
  intros Hrun.
  assert (HP : get_num_dofs (space st) <= get_num_dofs (space st')
               /\ exists es,
                   graph_dof_est st' = graph_dof_est st ++ es
                   /\ StronglySorted Z.le (map fst es)
                   /\ Forall (fun x => get_num_dofs (space st) <= x
                                       <= get_num_dofs (space st')) (map fst es)).
  { revert Hrun.
    apply (do_while_invariant
             (fun s => get_num_dofs (space st) <= get_num_dofs (space s)
                       /\ exists es,
                           graph_dof_est s = graph_dof_est st ++ es
                           /\ StronglySorted Z.le (map fst es)
                           /\ Forall (fun x => get_num_dofs (space st) <= x
                                               <= get_num_dofs (space s)) (map fst es))).
    - intros s s1 (Hle & es & Hg & Hsorted & Hall) Hs.
      pose proof (hcurl_step_dofs s s1 Hs) as Hstep.
      destruct (hcurl_step_spec cfg s s1 Hs) as (_ & _ & _ & _ & Hg1 & _).
      split; [lia|].
      exists (es ++ [(get_num_dofs (space s), err_est_of s)]).
      rewrite map_app. cbn [map fst].
      split; [rewrite Hg1, Hg, <- app_assoc; reflexivity|]. split.
      + apply StronglySorted_snoc; [exact Hsorted|].
        eapply Forall_impl; [exact Hall|]. cbn. intros x Hx. lia.
      + apply Forall_app. split.
        * eapply Forall_impl; [exact Hall|]. cbn. intros x Hx. lia.
        * constructor; [lia|constructor].
    - split; [lia|]. exists []. rewrite app_nil_r. cbn. repeat constructor. }
  exact (proj2 HP).
Qed.

End DofColumn.

(** X5.  With a Candidate Selector that never returns a space with fewer
    degrees of freedom, the DOF column of the pairs that a run of the
    static adaptivity loop appends to the graph of the estimated error is
    non-decreasing, and lies between the DOF counts of the working space at
    the start and at the end of the run. *)
Theorem X5_dof_column_is_nondecreasing `{H2D : Hermes2D} :
  adapt_never_coarsens ->
  forall (cfg : Hcurl.Config) n (st st' : Hcurl.State),
    Hcurl.adaptivity_loop cfg n st = Ret tt st' ->
    exists es,
      Hcurl.graph_dof_est st' = Hcurl.graph_dof_est st ++ es
      /\ StronglySorted Z.le (map fst es)
      /\ Forall (fun x => get_num_dofs (Hcurl.space st) <= x
                          <= get_num_dofs (Hcurl.space st')) (map fst es).
Proof. intros Hmono cfg n st st'. now apply hcurl_dof_column_sorted. Qed.

(** The selector of the small instance never coarsens; the run of the
    static driver has the DOF column 6, 10. *)
Lemma X5_dof_column_is_nondecreasing_witness :
  @adapt_never_coarsens (Toy.lib Toy.refining)
  /\ @Hcurl.adaptivity_loop (Toy.lib Toy.refining) Runs.hcurl_cfg 5 Runs.hcurl_start
     = Ret tt Runs.hcurl_final
  /\ exists es,
      @Hcurl.graph_dof_est (Toy.lib Toy.refining) Runs.hcurl_final
      = @Hcurl.graph_dof_est (Toy.lib Toy.refining) Runs.hcurl_start ++ es
      /\ StronglySorted Z.le (map fst es).
Proof.
  assert (Hmono : @adapt_never_coarsens (Toy.lib Toy.refining)).
  { intros sp errs. unfold get_num_dofs. cbn. lia. }
  assert (Hrun : @Hcurl.adaptivity_loop (Toy.lib Toy.refining) Runs.hcurl_cfg 5
                   Runs.hcurl_start = Ret tt Runs.hcurl_final) by evaluated.
  split; [exact Hmono|]. split; [exact Hrun|].
  destruct (@X5_dof_column_is_nondecreasing (Toy.lib Toy.refining) Hmono
              Runs.hcurl_cfg 5%nat Runs.hcurl_start Runs.hcurl_final Hrun)
    as (es & Hg & Hs & _).
  exists es. split; [exact Hg|exact Hs].
Defined.

(** X7.  When the static adaptivity loop returns, the solver is set to the
    reference space built in the last step, the reference solution is the
    solver's solution vector on that space, and the coarse solution is the
    projection of the reference solution onto the working space from which
    the last step started: the space as it was before the last
    refinement. *)
Theorem X7_final_solutions_belong_to_last_step `{H2D : Hermes2D} :
  forall (cfg : Hcurl.Config) n (st st' : Hcurl.State),
    Hcurl.adaptivity_loop cfg n st = Ret tt st' ->
    exists s,
      Hcurl.adapt_step cfg s = Ret tt st'
      /\ Hcurl.newton_space st' = ref_space_of (Hcurl.space s)
      /\ Hcurl.ref_sln st'
         = vector_to_solution (Hcurl.newton_sln_vector st') (Hcurl.newton_space st')
      /\ Hcurl.sln st' = project_global (Hcurl.space s) (Hcurl.ref_sln st')
      /\ (Hcurl.space st' = Hcurl.space s
          \/ Hcurl.space st'
             = fst (lib_adapt (Hcurl.space s) (Some (HcurlView.elem_errors_of s)))).
Proof.
  intros cfg n st st' Hrun.
  apply do_while_last in Hrun as (s & Hs & _).
  exists s. split; [exact Hs|].
  destruct (hcurl_step_spec cfg s st' Hs)
    as (Hns & Hnv & Hrs & Hsl & _ & _ & tail & _ & Hcase).
  split; [exact Hns|]. split; [now rewrite Hrs, Hns, Hnv|].
  split; [now rewrite Hsl, Hrs|].
  destruct Hcase as [(_ & _ & Hsp & _)|(_ & sp' & d & Ha & _ & Hsp & _)].
  - now left.
  - right. now rewrite Ha.
Qed.

(** The run of the static driver on the small instance. *)
Lemma X7_final_solutions_belong_to_last_step_witness :
  @Hcurl.adaptivity_loop (Toy.lib Toy.refining) Runs.hcurl_cfg 5 Runs.hcurl_start
  = Ret tt Runs.hcurl_final
  /\ @Hcurl.ref_sln (Toy.lib Toy.refining) Runs.hcurl_final
     = @vector_to_solution (Toy.lib Toy.refining)
         (@Hcurl.newton_sln_vector (Toy.lib Toy.refining) Runs.hcurl_final)
         (@Hcurl.newton_space (Toy.lib Toy.refining) Runs.hcurl_final).
Proof.
  assert (Hrun : @Hcurl.adaptivity_loop (Toy.lib Toy.refining) Runs.hcurl_cfg 5
                   Runs.hcurl_start = Ret tt Runs.hcurl_final) by evaluated.
  split; [exact Hrun|].
  destruct (@X7_final_solutions_belong_to_last_step (Toy.lib Toy.refining)
              Runs.hcurl_cfg 5%nat Runs.hcurl_start Runs.hcurl_final Hrun)
    as (s & _ & _ & Hrs & _).
  exact Hrs.
Defined.

(** ** The transient driver: what a time step and a run leave behind *)

Section TransientHistory.
Context `{H2D : Hermes2D}.
Import Transient TransientView.
Variable cfg : Config.

Lemma step_lines_app (tr evs : list Event) :
  step_lines (tr ++ evs) = step_lines tr ++ step_lines evs.
Proof. unfold step_lines. apply flat_map_app. Qed.

(** The spatial adaptivity loop, entered in state [s0]. *)
Lemma transient_loop_history n (s0 s' : State) :
  do_while n (adapt_step cfg) (fun s => negb (done s)) s0 = Ret tt s' ->
  basemesh s' = basemesh s0
  /\ ndof_coarse s' = ndof_coarse s0
  /\ current_time s' = current_time s0
  /\ ts s' = ts s0
  /\ exists evs,
      trace s' = trace s0 ++ evs
      /\ count is_derefine evs = 0%nat
      /\ count is_copy_prev evs = 0%nat
      /\ Forall (rk_at (current_time s0) (time_step cfg)) evs
      /\ step_lines evs
         = map (fun i => (ts s0, as_ s0 + Z.of_nat i)) (seq 0 (count is_ref_build evs))
      /\ (1 <= count is_ref_build evs)%nat.
Proof.
  pose (R := fun (s : State) (evs : list Event) =>
               basemesh s = basemesh s0
               /\ ndof_coarse s = ndof_coarse s0
               /\ current_time s = current_time s0
               /\ ts s = ts s0
               /\ trace s = trace s0 ++ evs
               /\ count is_derefine evs = 0%nat
               /\ count is_copy_prev evs = 0%nat
               /\ Forall (rk_at (current_time s0) (time_step cfg)) evs
               /\ step_lines evs
                  = map (fun i => (ts s0, as_ s0 + Z.of_nat i))
                      (seq 0 (count is_ref_build evs))).
  intros Hrun.
  assert (HQ : exists evs,
             R s' evs /\ (1 <= count is_ref_build evs)%nat
             /\ (done s' = false ->
                 as_ s' = as_ s0 + Z.of_nat (count is_ref_build evs))).
  { revert Hrun.
    apply (do_while_invariant_cond
             (fun s => exists evs,
                  R s evs /\ as_ s = as_ s0 + Z.of_nat (count is_ref_build evs))
             (fun s => exists evs,
                  R s evs /\ (1 <= count is_ref_build evs)%nat
                  /\ (done s = false ->
                      as_ s = as_ s0 + Z.of_nat (count is_ref_build evs)))).
    - intros s s1 (evs & (Hbm & Hnc & Hct & Hts & Htr & Hdr & Hcp & Hrk & Hlines) & Has) Hs.
      destruct (transient_step_spec cfg s s1 Hs)
        as (Hbm1 & Hnc1 & _ & _ & Hct1 & Hts1 & tail & Htr1 & Hcase).
      destruct (transient_estimate_counts cfg s) as (Hrb & _ & Hcp_e & Hdr_e & Hl_e & Hrk_e).
      assert (Htail : count is_ref_build tail = 0%nat
                      /\ count is_derefine tail = 0%nat
                      /\ count is_copy_prev tail = 0%nat
                      /\ step_lines tail = []
                      /\ Forall (rk_at (current_time s0) (time_step cfg)) tail
                      /\ (done s1 = false -> as_ s1 = as_ s + 1)).
      { destruct Hcase as [(_ & -> & _ & _ & Hd)|(_ & sp' & d & _ & -> & _ & Has1 & Hd)].
        - repeat split; try reflexivity; [repeat constructor|congruence].
        - repeat split; try reflexivity; [repeat constructor|].
          intros Hdone. rewrite Hdone in Hd. symmetry in Hd.
          apply orb_false_iff in Hd as (_ & Hceil). now rewrite Hceil in Has1. }
      destruct Htail as (Hrb_t & Hdr_t & Hcp_t & Hl_t & Hrk_t & Has_t).
      exists (evs ++ estimate_events cfg s ++ tail).
      split; [|split].
      + unfold R. rewrite !count_app, !step_lines_app, Hrb, Hrb_t, Hdr, Hdr_e, Hdr_t,
          Hcp, Hcp_e, Hcp_t, Hl_e, Hl_t, Hlines.
        repeat (split; [congruence|]).
        split; [rewrite Htr1, Htr, <- app_assoc; reflexivity|].
        split; [reflexivity|]. split; [reflexivity|]. split.
        * apply Forall_app. split; [exact Hrk|]. apply Forall_app.
          split; [|exact Hrk_t]. now rewrite <- Hct.
        * replace (count is_ref_build evs + (1 + 0))%nat
            with (S (count is_ref_build evs)) by lia.
          rewrite seq_S, map_app, app_nil_r. cbn. now rewrite Hts, Has.
      + rewrite !count_app, Hrb. lia.
      + intros Hd. rewrite (Has_t Hd), Has, !count_app, Hrb, Hrb_t. lia.
    - intros s (evs & HR & _ & Has) Hc. exists evs. split; [exact HR|].
      apply Has. now apply negb_true_iff in Hc.
    - exists []. unfold R. rewrite app_nil_r. cbn.
      split; [repeat split; constructor|lia]. }
  destruct HQ as (evs & (Hbm & Hnc & Hct & Hts & Htr & Hdr & Hcp & Hrk & Hlines) & H1 & _).
  repeat (split; [assumption|]). exists evs. repeat split; assumption.
Qed.

Lemma advance_frame (s : State) :
  exists s',
    advance cfg s = Ret tt s'
    /\ basemesh s' = basemesh s
    /\ ts s' = ts s + 1
    /\ current_time s' = dadd (current_time s) (time_step cfg)
    /\ trace s' = trace s ++ [EvCopyPrev (sln_time_new s)].
Proof.
  unfold advance, emit, bind, gets, modify, ret. cbn.
  eexists. split; [reflexivity|]. cbn. repeat split; reflexivity.
Qed.

(** One time step. *)
Lemma time_step_body_history n (st st' : State) :
  time_step_body cfg n st = Ret tt st' ->
  basemesh st' = basemesh st
  /\ ts st' = ts st + 1
  /\ current_time st' = dadd (current_time st) (time_step cfg)
  /\ exists evs,
      trace st' = trace st ++ evs
      /\ count is_copy_prev evs = 1%nat
      /\ count is_derefine evs
         = (if derefinement_due cfg (ts st) then 1 else 0)%nat.
Proof.
  unfold time_step_body, bind at 1.
  rewrite periodic_derefinement_spec.
  set (st0 := if derefinement_due cfg (ts st) then _ else _).
  assert (H0 : basemesh st0 = basemesh st /\ ts st0 = ts st
               /\ current_time st0 = current_time st
               /\ exists evs0,
                   trace st0 = trace st ++ evs0
                   /\ count is_copy_prev evs0 = 0%nat
                   /\ count is_derefine evs0
                      = (if derefinement_due cfg (ts st) then 1 else 0)%nat).
  { subst st0. destruct (derefinement_due cfg (ts st)).
    - repeat (split; [reflexivity|]). eexists. cbn. rewrite <- app_assoc.
      split; [reflexivity|]. split; reflexivity.
    - repeat (split; [reflexivity|]). exists []. now rewrite app_nil_r. }
  destruct H0 as (Hbm0 & Hts0 & Hct0 & evs0 & Htr0 & Hcp0 & Hdr0).
  unfold bind.
  destruct (spatial_adaptivity_loop cfg n st0) as [[] s|e s|] eqn:Hloop; try discriminate.
  intros Hadv.
  destruct (transient_loop_history n _ s Hloop)
    as (Hbm & _ & Hct & Hts & evs & Htr & Hdr & Hcp & _).
  cbn in Hbm, Hct, Hts, Htr.
  destruct (advance_frame s) as (s1 & Hadv' & Hbm1 & Hts1 & Hct1 & Htr1).
  rewrite Hadv in Hadv'. inversion Hadv'; subst s1.
  split; [congruence|]. split; [congruence|]. split; [congruence|].
  exists (evs0 ++ evs ++ [EvCopyPrev (sln_time_new s)]).
  split; [rewrite Htr1, Htr, Htr0, <- !app_assoc; reflexivity|].
  rewrite !count_app, Hcp0, Hcp, Hdr0, Hdr. cbn.
  split; [reflexivity|]. destruct (derefinement_due cfg (ts st)); reflexivity.
Qed.

Lemma iterate_S {A} (f : A -> A) k (a : A) : iterate (S k) f a = iterate k f (f a).
Proof. reflexivity. Qed.

(** The whole time stepping loop. *)
Lemma time_stepping_history n_ts n_as : forall (st st' : State),
  time_stepping_loop cfg n_ts n_as st = Ret tt st' ->
  exists (k : nat) evs,
    (1 <= k)%nat
    /\ trace st' = trace st ++ evs
    /\ ts st' = ts st + Z.of_nat k
    /\ current_time st'
       = iterate k (fun t => dadd t (time_step cfg)) (current_time st)
    /\ basemesh st' = basemesh st
    /\ count is_copy_prev evs = k
    /\ count is_derefine evs
       = length (List.filter (derefinement_due cfg)
                   (map (fun i => ts st + Z.of_nat i) (seq 0 k)))
    /\ dlt (current_time st') (T_FINAL cfg) = false.
Proof.
  unfold time_stepping_loop.
  induction n_ts as [|n IH]; intros st st' Hrun; [discriminate|].
  cbn in Hrun. unfold bind in Hrun.
  destruct (time_step_body cfg n_as st) as [[] s1| |] eqn:Hbody; try discriminate.
  destruct (time_step_body_history n_as st s1 Hbody)
    as (Hbm & Hts & Hct & evs1 & Htr & Hcp & Hdr).
  destruct (dlt (current_time s1) (T_FINAL cfg)) eqn:Hc.
  - destruct (IH s1 st' Hrun) as (k & evs & Hk & Htr' & Hts' & Hct' & Hbm' & Hcp' & Hdr' & Hend).
    exists (S k), (evs1 ++ evs).
    split; [lia|]. split; [rewrite Htr', Htr, <- app_assoc; reflexivity|].
    split; [lia|]. split; [rewrite Hct', Hct; reflexivity|].
    split; [congruence|]. split; [rewrite count_app; lia|]. split; [|exact Hend].
    rewrite count_app, Hdr, Hdr'. cbn [seq map List.filter].
    rewrite Z.add_0_r, <- seq_shift, map_map.
    replace (map (fun x => ts st + Z.of_nat (S x)) (seq 0 k))
      with (map (fun i => ts s1 + Z.of_nat i) (seq 0 k))
      by (apply map_ext; intros i; lia).
    destruct (derefinement_due cfg (ts st)); reflexivity.
  - inversion Hrun; subst st'.
    exists 1%nat, evs1.
    split; [lia|]. split; [exact Htr|]. split; [lia|]. split; [exact Hct|].
    split; [exact Hbm|]. split; [exact Hcp|]. split; [|exact Hc].
    rewrite Hdr. cbn. rewrite Z.add_0_r.
    destruct (derefinement_due cfg (ts st)); reflexivity.
Qed.

(** With [UNREF_FREQ = 1], of the indices 1, 2, ..., k all but the first
    are due for derefinement. *)
Lemma due_from_one k :
  UNREF_FREQ cfg = 1 ->
  length (List.filter (derefinement_due cfg) (map (fun i => 1 + Z.of_nat i) (seq 0 k)))
  = (k - 1)%nat.
Proof.
  intros HN. destruct k as [|k]; [reflexivity|].
  assert (Hall : forall (l : list nat),
             length (List.filter (derefinement_due cfg)
                       (map (fun x => 1 + Z.of_nat (S x)) l)) = length l).
  { induction l as [|a l IHl]; [reflexivity|].
    cbn [map List.filter]. unfold derefinement_due at 1.
    rewrite HN, Z.rem_1_r.
    replace (1 <? 1 + Z.of_nat (S a)) with true by (symmetry; apply Z.ltb_lt; lia).
    cbn [andb Z.eqb length]. now rewrite IHl. }
  assert (H1 : derefinement_due cfg (1 + Z.of_nat 0) = false) by reflexivity.
  cbn [seq map List.filter]. rewrite H1, <- seq_shift, map_map, Hall, length_seq. lia.
Qed.

End TransientHistory.

(** X8.  The spatial adaptivity loop of a time step changes neither the
    current time nor the time step counter nor the base mesh; every
    Runge-Kutta step it makes starts from the current time of the time step
    with the configured step size, and it derefines nothing. *)
Theorem X8_adaptivity_loop_stays_in_its_time_step `{H2D : Hermes2D} :
  forall (cfg : Transient.Config) n (st st' : Transient.State),
    Transient.spatial_adaptivity_loop cfg n st = Ret tt st' ->
    Transient.current_time st' = Transient.current_time st
    /\ Transient.ts st' = Transient.ts st
    /\ Transient.basemesh st' = Transient.basemesh st
    /\ exists evs,
        Transient.trace st' = Transient.trace st ++ evs
        /\ Forall (rk_at (Transient.current_time st) (Transient.time_step cfg)) evs
        /\ count is_derefine evs = 0%nat.
Proof.
  intros cfg n st st' Hrun.
  destruct (transient_loop_history cfg n _ st' Hrun)
    as (Hbm & _ & Hct & Hts & evs & Htr & Hdr & _ & Hrk & _).
  repeat (split; [assumption|]). exists evs. repeat split; assumption.
Qed.

(** The adaptivity loop of the first time step on the small instance. *)
Lemma X8_adaptivity_loop_stays_in_its_time_step_witness :
  @Transient.spatial_adaptivity_loop (Toy.lib Toy.refining) Runs.transient_cfg 5
    Runs.transient_start = Ret tt MoreRuns.transient_loop_end
  /\ @Transient.current_time (Toy.lib Toy.refining) MoreRuns.transient_loop_end
     = @Transient.current_time (Toy.lib Toy.refining) Runs.transient_start
  /\ @Transient.ts (Toy.lib Toy.refining) MoreRuns.transient_loop_end = 1.
Proof.
  assert (Hrun : @Transient.spatial_adaptivity_loop (Toy.lib Toy.refining)
                   Runs.transient_cfg 5 Runs.transient_start
                 = Ret tt MoreRuns.transient_loop_end) by evaluated.
  split; [exact Hrun|].
  destruct (@X8_adaptivity_loop_stays_in_its_time_step (Toy.lib Toy.refining)
              Runs.transient_cfg 5%nat Runs.transient_start MoreRuns.transient_loop_end
              Hrun) as (Hct & Hts & _).
  split; [exact Hct|exact Hts].
Defined.

(** X9.  The lines "Time step t, adaptivity step a:" that the spatial
    adaptivity loop of a time step logs are numbered a = 1, 2, 3, ... without
    gap or repetition, all with the index t of the time step, one line per
    reference space built. *)
Theorem X9_adaptivity_steps_are_numbered_from_one `{H2D : Hermes2D} :
  forall (cfg : Transient.Config) n (st st' : Transient.State),
    Transient.spatial_adaptivity_loop cfg n st = Ret tt st' ->
    exists evs,
      Transient.trace st' = Transient.trace st ++ evs
      /\ step_lines evs
         = map (fun i => (Transient.ts st, 1 + Z.of_nat i))
             (seq 0 (count is_ref_build evs))
      /\ (1 <= count is_ref_build evs)%nat.
Proof.
  intros cfg n st st' Hrun.
  destruct (transient_loop_history cfg n _ st' Hrun)
    as (_ & _ & _ & _ & evs & Htr & _ & _ & _ & Hlines & H1).
  exists evs. repeat split; assumption.
Qed.

(** The adaptivity loop of the first time step on the small instance logs
    steps 1 and 2 of time step 1. *)
Lemma X9_adaptivity_steps_are_numbered_from_one_witness :
  @Transient.spatial_adaptivity_loop (Toy.lib Toy.refining) Runs.transient_cfg 5
    Runs.transient_start = Ret tt MoreRuns.transient_loop_end
  /\ @step_lines (Toy.lib Toy.refining)
       (@Transient.trace (Toy.lib Toy.refining) MoreRuns.transient_loop_end)
     = [(1, 1); (1, 2)]
  /\ exists evs,
      @Transient.trace (Toy.lib Toy.refining) MoreRuns.transient_loop_end
      = @Transient.trace (Toy.lib Toy.refining) Runs.transient_start ++ evs
      /\ (1 <= count (@is_ref_build (Toy.lib Toy.refining)) evs)%nat.
Proof.
  assert (Hrun : @Transient.spatial_adaptivity_loop (Toy.lib Toy.refining)
                   Runs.transient_cfg 5 Runs.transient_start
                 = Ret tt MoreRuns.transient_loop_end) by evaluated.
  split; [exact Hrun|]. split; [evaluated|].
  destruct (@X9_adaptivity_steps_are_numbered_from_one (Toy.lib Toy.refining)
              Runs.transient_cfg 5%nat Runs.transient_start MoreRuns.transient_loop_end
              Hrun) as (evs & Htr & _ & H1).
  exists evs. split; [exact Htr|exact H1].
Defined.

(** X10.  A run of the time stepping loop that returns has made k >= 1
    time steps: the time step counter has grown by k, the current time is
    the start time with the time step added k times, the base mesh is
    unchanged, the new solution was copied into the previous one k times,
    the mesh was derefined once for every index of a time step of the run
    that is greater than 1 and a multiple of [UNREF_FREQ], and the current
    time is not below [T_FINAL].  Started at index 1 with [UNREF_FREQ = 1],
    that is k - 1 derefinements. *)
Theorem X10_time_stepping_bookkeeping `{H2D : Hermes2D} :
  forall (cfg : Transient.Config) n_ts n_as (st st' : Transient.State),
    Transient.time_stepping_loop cfg n_ts n_as st = Ret tt st' ->
    exists (k : nat) evs,
      (1 <= k)%nat
      /\ Transient.trace st' = Transient.trace st ++ evs
      /\ Transient.ts st' = Transient.ts st + Z.of_nat k
      /\ Transient.current_time st'
         = iterate k (fun t => dadd t (Transient.time_step cfg))
             (Transient.current_time st)
      /\ Transient.basemesh st' = Transient.basemesh st
      /\ count is_copy_prev evs = k
      /\ count is_derefine evs
         = length (List.filter (Transient.derefinement_due cfg)
                     (map (fun i => Transient.ts st + Z.of_nat i) (seq 0 k)))
      /\ dlt (Transient.current_time st') (Transient.T_FINAL cfg) = false
      /\ (Transient.UNREF_FREQ cfg = 1 -> Transient.ts st = 1 ->
          count is_derefine evs = (k - 1)%nat).
Proof.
  intros cfg n_ts n_as st st' Hrun.
  destruct (time_stepping_history cfg n_ts n_as st st' Hrun)
    as (k & evs & Hk & Htr & Hts & Hct & Hbm & Hcp & Hdr & Hend).
  exists k, evs. repeat (split; [assumption|]).
  intros HN H1. rewrite Hdr, H1. now apply due_from_one.
Qed.

(** The transient driver on the small instance with final time 0.15:
    three time steps, three copies, two derefinements. *)
Lemma X10_time_stepping_bookkeeping_witness :
  @Transient.time_stepping_loop (Toy.lib Toy.refining) MoreRuns.short_cfg 10 5
    MoreRuns.short_start = Ret tt MoreRuns.short_final
  /\ @Transient.ts (Toy.lib Toy.refining) MoreRuns.short_final = 4
  /\ count (@is_copy_prev (Toy.lib Toy.refining))
       (@Transient.trace (Toy.lib Toy.refining) MoreRuns.short_final) = 3%nat
  /\ count (@is_derefine (Toy.lib Toy.refining))
       (@Transient.trace (Toy.lib Toy.refining) MoreRuns.short_final) = 2%nat
  /\ exists k : nat,
      @Transient.ts (Toy.lib Toy.refining) MoreRuns.short_final
      = @Transient.ts (Toy.lib Toy.refining) MoreRuns.short_start + Z.of_nat k.
Proof.
  assert (Hrun : @Transient.time_stepping_loop (Toy.lib Toy.refining) MoreRuns.short_cfg
                   10 5 MoreRuns.short_start = Ret tt MoreRuns.short_final) by evaluated.
  split; [exact Hrun|]. split; [reflexivity|]. split; [evaluated|]. split; [evaluated|].
  destruct (@X10_time_stepping_bookkeeping (Toy.lib Toy.refining) MoreRuns.short_cfg
              10%nat 5%nat MoreRuns.short_start MoreRuns.short_final Hrun)
    as (k & evs & _ & _ & Hts & _).
  exists k. exact Hts.
Defined.

(** ** The derefinement policies *)

Section Policies.
Context `{H2D : Hermes2D}.

Lemma uniform_fold_mesh p ids : forall (sp : Space Mesh),
  sp_mesh (fold_left (fun s id => set_element_order_internal id (mkOrder p p) s) ids sp)
  = sp_mesh sp.
Proof. induction ids as [|a ids IH]; intros sp; cbn; [reflexivity|]. now rewrite IH. Qed.

Lemma uniform_fold_keeps p ids : forall (sp : Space Mesh) id,
  sp_edata sp !! id = Some (mkOrder p p) ->
  sp_edata (fold_left (fun s id => set_element_order_internal id (mkOrder p p) s) ids sp)
    !! id = Some (mkOrder p p).
Proof.
  induction ids as [|a ids IH]; intros sp id Hlook; cbn; [exact Hlook|].
  apply IH. unfold set_element_order_internal. cbn.
  destruct (decide (a = id)) as [->|Hne].
  - apply lookup_insert_eq.
  - now rewrite lookup_insert_ne.
Qed.

Lemma uniform_fold_sets p ids : forall (sp : Space Mesh) id,
  In id ids ->
  sp_edata (fold_left (fun s id => set_element_order_internal id (mkOrder p p) s) ids sp)
    !! id = Some (mkOrder p p).
Proof.
  induction ids as [|a ids IH]; intros sp id Hin; [destruct Hin|].
  cbn. destruct (decide (a = id)) as [->|Hne].
  - apply uniform_fold_keeps. unfold set_element_order_internal. cbn.
    apply lookup_insert_eq.
  - destruct Hin as [Heq|Hin]; [contradiction|]. now apply IH.
Qed.

(** [set_uniform_order] keeps the mesh and gives every active element the
    order [p] in both directions. *)
Lemma set_uniform_order_spec p (sp : Space Mesh) :
  sp_mesh (set_uniform_order p sp) = sp_mesh sp
  /\ forall id, In id (active_elements (sp_mesh sp)) ->
                sp_edata (set_uniform_order p sp) !! id = Some (mkOrder p p).
Proof.
  unfold set_uniform_order. split; [apply uniform_fold_mesh|].
  intros id Hin. now apply uniform_fold_sets.
Qed.

(** On a list without repetition, [adjust_step] adjusts the order of every
    listed element once and leaves the others alone. *)
Lemma adjust_fold_exact dh dv hmin vmin ids :
  NoDup ids ->
  forall (sp : Space Mesh) id,
    (In id ids ->
     sp_edata (fold_left (adjust_step dh dv hmin vmin) ids sp) !! id
     = Some (adjust_one dh dv hmin vmin (get_element_order sp id)))
    /\ (~ In id ids ->
        sp_edata (fold_left (adjust_step dh dv hmin vmin) ids sp) !! id
        = sp_edata sp !! id).
Proof.
  induction 1 as [|a ids Hnotin Hnodup IH]; intros sp id.
  - split; [intros []|reflexivity].
  - cbn [fold_left].
    assert (Hother : forall j, j <> a ->
               sp_edata (adjust_step dh dv hmin vmin sp a) !! j = sp_edata sp !! j).
    { intros j Hj. unfold adjust_step, set_element_order_internal. cbn.
      now rewrite lookup_insert_ne by congruence. }
    assert (Hnotin' : ~ In a ids) by (now rewrite <- list_elem_of_In).
    destruct (IH (adjust_step dh dv hmin vmin sp a) id) as (Hin & Hout).
    split.
    + intros [->|Hid].
      * rewrite (Hout Hnotin'). unfold adjust_step, set_element_order_internal. cbn.
        apply lookup_insert_eq.
      * rewrite (Hin Hid). do 2 f_equal. unfold get_element_order.
        rewrite Hother; [reflexivity|]. intros ->. contradiction.
    + intros Hno. rewrite Hout by (intros Hid; apply Hno; now right).
      apply Hother. intros ->. apply Hno. now left.
Qed.

End Policies.

(** Policy 1 and the initial space, side by side. *)
Lemma policy_1_and_initial_space `{H2D : Hermes2D}
    (cfg : Transient.Config) bm (sp : Space Mesh) :
  (sp_mesh (Transient.derefine cfg 1 bm sp) = bm
   /\ forall id, In id (active_elements bm) ->
                 sp_edata (Transient.derefine cfg 1 bm sp) !! id
                 = Some (mkOrder (Transient.P_INIT cfg) (Transient.P_INIT cfg)))
  /\ (sp_mesh (set_uniform_order (Transient.P_INIT cfg) (mkSpace bm ∅ 0)) = bm
      /\ forall id, In id (active_elements bm) ->
                    sp_edata (set_uniform_order (Transient.P_INIT cfg) (mkSpace bm ∅ 0)) !! id
                    = Some (mkOrder (Transient.P_INIT cfg) (Transient.P_INIT cfg))).
Proof.
  split.
  - change (Transient.derefine cfg 1 bm sp)
      with (set_uniform_order (Transient.P_INIT cfg) (set_mesh bm sp)).
    exact (set_uniform_order_spec (Transient.P_INIT cfg) (set_mesh bm sp)).
  - exact (set_uniform_order_spec (Transient.P_INIT cfg) (mkSpace bm ∅ 0)).
Qed.

(** X11.  Derefinement policy 1 puts the working space on the base mesh,
    policy 2 on the mesh with one layer of refinement undone; both give
    every active element of that mesh the order [P_INIT] in both
    directions, as the initial space has it.  ([Space::set_uniform_order]
    is library code, taken to set the order of every active element.) *)
Theorem X11_policies_1_and_2_reset_the_orders `{H2D : Hermes2D} :
  forall (cfg : Transient.Config) bm (sp : Space Mesh),
    (sp_mesh (Transient.derefine cfg 1 bm sp) = bm
     /\ forall id, In id (active_elements bm) ->
                   sp_edata (Transient.derefine cfg 1 bm sp) !! id
                   = Some (mkOrder (Transient.P_INIT cfg) (Transient.P_INIT cfg)))
    /\ (sp_mesh (Transient.derefine cfg 2 bm sp) = unrefine_all_elements (sp_mesh sp)
        /\ forall id, In id (active_elements (unrefine_all_elements (sp_mesh sp))) ->
                      sp_edata (Transient.derefine cfg 2 bm sp) !! id
                      = Some (mkOrder (Transient.P_INIT cfg) (Transient.P_INIT cfg)))
    /\ (sp_mesh (new_space bm (Transient.P_INIT cfg)) = bm
        /\ forall id, In id (active_elements bm) ->
                      sp_edata (new_space bm (Transient.P_INIT cfg)) !! id
                      = Some (mkOrder (Transient.P_INIT cfg) (Transient.P_INIT cfg))).
Proof.
  intros cfg bm sp. split; [|split].
  - change (Transient.derefine cfg 1 bm sp)
      with (set_uniform_order (Transient.P_INIT cfg) (set_mesh bm sp)).
    exact (set_uniform_order_spec (Transient.P_INIT cfg) (set_mesh bm sp)).
  - change (Transient.derefine cfg 2 bm sp)
      with (set_uniform_order (Transient.P_INIT cfg)
              (set_mesh (unrefine_all_elements (sp_mesh sp)) sp)).
    exact (set_uniform_order_spec (Transient.P_INIT cfg)
             (set_mesh (unrefine_all_elements (sp_mesh sp)) sp)).
  - exact (set_uniform_order_spec (Transient.P_INIT cfg) (mkSpace bm ∅ 0)).
Qed.

(** Policy 1 on the space with orders (5,4), (2,2) and none, base mesh of
    level 0: element 0 gets the order (2,2). *)
Lemma X11_policies_1_and_2_reset_the_orders_witness :
  In 0%nat (@active_elements (Toy.lib Toy.refining) 0%nat)
  /\ sp_edata (@Transient.derefine (Toy.lib Toy.refining) Runs.transient_cfg 1
                 0%nat Runs.worn_space) !! 0%nat = Some (mkOrder 2 2).
Proof.
  assert (Hin : In 0%nat (@active_elements (Toy.lib Toy.refining) 0%nat))
    by (cbn; auto).
  split; [exact Hin|].
  exact (proj2 (proj1 (@X11_policies_1_and_2_reset_the_orders (Toy.lib Toy.refining)
                         Runs.transient_cfg 0%nat Runs.worn_space)) 0%nat Hin).
Defined.

(** X12.  With a DOF count that depends on the orders of the active
    elements only, the derefinement block with policy 1 leaves the working
    space with exactly as many degrees of freedom as the initial space on
    the base mesh has, whatever the adaptivity did before, and records that
    number in [ndof_coarse]. *)
Theorem X12_policy_1_restores_the_base_dof_count `{H2D : Hermes2D} :
  count_dofs_local ->
  forall (cfg : Transient.Config) (st : Transient.State),
    Transient.UNREF_METHOD cfg = 1 ->
    get_num_dofs (Transient.space (TransientView.derefined cfg st))
    = get_num_dofs (new_space (Transient.basemesh st) (Transient.P_INIT cfg))
    /\ Transient.ndof_coarse (TransientView.derefined cfg st)
       = get_num_dofs (new_space (Transient.basemesh st) (Transient.P_INIT cfg)).
Proof.
  intros Hlocal cfg st Hm.
  assert (Heq : get_num_dofs (Transient.space (TransientView.derefined cfg st))
                = get_num_dofs (new_space (Transient.basemesh st) (Transient.P_INIT cfg))).
  { change (get_num_dofs (Transient.space (TransientView.derefined cfg st)))
      with (count_dofs
              (sp_mesh (Transient.derefine cfg (Transient.UNREF_METHOD cfg)
                          (Transient.basemesh st) (Transient.space st)))
              (sp_edata (Transient.derefine cfg (Transient.UNREF_METHOD cfg)
                           (Transient.basemesh st) (Transient.space st)))).
    change (get_num_dofs (new_space (Transient.basemesh st) (Transient.P_INIT cfg)))
      with (count_dofs
              (sp_mesh (set_uniform_order (Transient.P_INIT cfg)
                          (mkSpace (Transient.basemesh st) ∅ 0)))
              (sp_edata (set_uniform_order (Transient.P_INIT cfg)
                           (mkSpace (Transient.basemesh st) ∅ 0)))).
    rewrite Hm.
    destruct (policy_1_and_initial_space cfg (Transient.basemesh st) (Transient.space st))
      as ((Hmesh & Hord) & (Hmesh0 & Hord0)).
    rewrite Hmesh, Hmesh0. apply Hlocal.
    intros id Hin. now rewrite Hord, Hord0. }
  split; [exact Heq|]. rewrite <- Heq. reflexivity.
Qed.

(** The DOF count of the small instance looks at active elements only. *)
Lemma toy_count_fold_ext (ed1 ed2 : gmap nat ElemOrder) (l : list nat) :
  (forall id, In id l -> ed1 !! id = ed2 !! id) ->
  forall acc,
    fold_left (fun acc id => acc + (ord_h (default order_unset (ed1 !! id)) + 1)) l acc
    = fold_left (fun acc id => acc + (ord_h (default order_unset (ed2 !! id)) + 1)) l acc.
Proof.
  induction l as [|a l IH]; intros H acc; cbn; [reflexivity|].
  rewrite (H a) by (now left). apply IH. intros id Hin. apply H. now right.
Qed.

Lemma toy_count_dofs_local : @count_dofs_local (Toy.lib Toy.refining).
Proof.
  intros m ed1 ed2 H. exact (toy_count_fold_ext ed1 ed2 (seq 0 (S m)) H 0).
Qed.

(** After its first time step the transient driver on the small instance
    has 10 degrees of freedom; a derefinement by policy 1 brings it back to
    the count of the initial space. *)
Lemma X12_policy_1_restores_the_base_dof_count_witness :
  @count_dofs_local (Toy.lib Toy.refining)
  /\ @Transient.UNREF_METHOD (Toy.lib Toy.refining) MoreRuns.reset_cfg = 1
  /\ @get_num_dofs (Toy.lib Toy.refining)
       (@Transient.space (Toy.lib Toy.refining)
          (@TransientView.derefined (Toy.lib Toy.refining) MoreRuns.reset_cfg
             Runs.transient_second))
     = @get_num_dofs (Toy.lib Toy.refining)
         (@Transient.space (Toy.lib Toy.refining) Runs.transient_start).
Proof.
  split; [exact toy_count_dofs_local|]. split; [reflexivity|].
  exact (proj1 (@X12_policy_1_restores_the_base_dof_count (Toy.lib Toy.refining)
                  toy_count_dofs_local MoreRuns.reset_cfg Runs.transient_second eq_refl)).
Defined.

(** X13.  When the mesh with one layer of refinement undone lists each of
    its active elements once, derefinement policy 3 lowers both components
    of the order of every active element by exactly one, but not below
    [P_INIT], and leaves the element data of all other elements as they
    are.  ([Space::adjust_element_order] is library code, taken to change
    and bound the order of every active element.) *)
Theorem X13_policy_3_lowers_each_order_once `{H2D : Hermes2D} :
  forall (cfg : Transient.Config) bm (sp : Space Mesh),
    NoDup (active_elements (unrefine_all_elements (sp_mesh sp))) ->
    forall id,
      (In id (active_elements (unrefine_all_elements (sp_mesh sp))) ->
       sp_edata (Transient.derefine cfg 3 bm sp) !! id
       = Some (mkOrder
                 (Z.max (ord_h (get_element_order sp id) - 1) (Transient.P_INIT cfg))
                 (Z.max (ord_v (get_element_order sp id) - 1) (Transient.P_INIT cfg))))
      /\ (~ In id (active_elements (unrefine_all_elements (sp_mesh sp))) ->
          sp_edata (Transient.derefine cfg 3 bm sp) !! id = sp_edata sp !! id).
Proof.
  intros cfg bm sp Hnodup id.
  change (Transient.derefine cfg 3 bm sp)
    with (fold_left (adjust_step (-1) (-1) (Transient.P_INIT cfg) (Transient.P_INIT cfg))
            (active_elements (unrefine_all_elements (sp_mesh sp)))
            (set_mesh (unrefine_all_elements (sp_mesh sp)) sp)).
  exact (adjust_fold_exact (-1) (-1) (Transient.P_INIT cfg) (Transient.P_INIT cfg) _
           Hnodup (set_mesh (unrefine_all_elements (sp_mesh sp)) sp) id).
Qed.

(** Policy 3 on the space with orders (5,4), (2,2) and none on the mesh
    of level 2: element 0 gets (4,3), element 2 is no longer active and
    stays without order. *)
Lemma X13_policy_3_lowers_each_order_once_witness :
  NoDup (@active_elements (Toy.lib Toy.refining)
           (@unrefine_all_elements (Toy.lib Toy.refining) (sp_mesh Runs.worn_space)))
  /\ sp_edata (@Transient.derefine (Toy.lib Toy.refining) Runs.transient_cfg 3
                 0%nat Runs.worn_space) !! 0%nat = Some (mkOrder 4 3)
  /\ sp_edata (@Transient.derefine (Toy.lib Toy.refining) Runs.transient_cfg 3
                 0%nat Runs.worn_space) !! 2%nat = None.
Proof.
  assert (Hnodup : NoDup (@active_elements (Toy.lib Toy.refining)
                            (@unrefine_all_elements (Toy.lib Toy.refining)
                               (sp_mesh Runs.worn_space)))).
  { cbn. apply NoDup_ListNoDup. repeat constructor; cbn; intuition discriminate. }
  split; [exact Hnodup|].
  pose proof (@X13_policy_3_lowers_each_order_once (Toy.lib Toy.refining)
                Runs.transient_cfg 0%nat Runs.worn_space Hnodup) as H.
  split.
  - destruct (H 0%nat) as (Hin & _). rewrite Hin by (cbn; auto). reflexivity.
  - destruct (H 2%nat) as (_ & Hout). rewrite Hout; [reflexivity|].
    cbn. intuition discriminate.
Defined.

(** ** A solver that never converges *)

Section Stalled.
Context `{H2D : Hermes2D}.
Import Transient TransientView.
Variable cfg : Config.
Hypothesis Hfail : rk_always_fails.

Lemma stalled_loop n (s0 s' : State) :
  do_while n (adapt_step cfg) (fun s => negb (done s)) s0 = Ret tt s' ->
  sln_time_new s' = sln_time_new s0.
Proof.
  apply (do_while_invariant (fun s => sln_time_new s = sln_time_new s0));
    [|reflexivity].
  intros s s1 Hinv Hs.
  destruct (transient_step_spec cfg s s1 Hs) as (_ & _ & _ & Hnew & _).
  rewrite Hnew, <- Hinv. unfold new_sln_of, rk_result.
  destruct (Hfail (ref_space_of (space s)) (current_time s) (time_step cfg)
              (sln_time_prev s) (sln_time_new s)) as (e & ->).
  reflexivity.
Qed.

(** A time step that returns has copied what the new time level solution
    held before it. *)
Lemma stalled_time_step n (st st' : State) :
  time_step_body cfg n st = Ret tt st' ->
  sln_time_prev st' = sln_time_new st
  /\ sln_time_new st' = sln_time_new st
  /\ ts st' = ts st + 1
  /\ current_time st' = dadd (current_time st) (time_step cfg).
Proof.
  intros Hrun.
  destruct (time_step_body_history cfg n st st' Hrun) as (_ & Hts & Hct & _).
  revert Hrun. unfold time_step_body, bind at 1.
  rewrite periodic_derefinement_spec.
  set (st0 := if derefinement_due cfg (ts st) then _ else _).
  assert (H0 : sln_time_new st0 = sln_time_new st)
    by (subst st0; destruct (derefinement_due cfg (ts st)); reflexivity).
  unfold bind.
  destruct (spatial_adaptivity_loop cfg n st0) as [[] s|e s|] eqn:Hloop;
    try discriminate.
  intros Hadv.
  pose proof (stalled_loop n _ s Hloop) as Hnew. cbn in Hnew.
  destruct (advance_spec cfg s) as (s1 & Hadv' & Hp & Hn & _).
  rewrite Hadv in Hadv'. inversion Hadv'; subst s1.
  repeat split; congruence.
Qed.

(** With a Candidate Selector that makes progress the time step returns. *)
Lemma time_step_body_returns (st : State) :
  adapt_makes_progress ->
  exists n st', time_step_body cfg n st = Ret tt st'.
Proof.
  intros Hprog.
  set (st0 := if derefinement_due cfg (ts st) then derefined cfg st else st).
  destruct (do_while_terminates
              (fun s => Z.to_nat (NDOF_STOP cfg - get_num_dofs (space s)))
              (adapt_step cfg) (fun s => negb (done s)))
    with (s := set_as 1 (set_done false st0)) as (n & s & _ & Hrun & _).
  { intros s. destruct (transient_step_progress Hprog cfg s) as (s1 & Hs & [Hd|Hlt]).
    - exists s1. split; [exact Hs|]. left. now rewrite Hd.
    - exists s1. split; [exact Hs|]. right. cbv beta. lia. }
  assert (Hloop : spatial_adaptivity_loop cfg n st0 = Ret tt s) by exact Hrun.
  destruct (advance_spec cfg s) as (s1 & Hadv & _).
  exists n, s1.
  unfold time_step_body, bind at 1.
  rewrite periodic_derefinement_spec. fold st0.
  unfold bind. rewrite Hloop. exact Hadv.
Qed.

End Stalled.

(** X14.  With a Runge-Kutta solver that fails at every call and leaves
    its output untouched, and a Candidate Selector that adds at least one
    degree of freedom whenever it reports a refinement, every time step
    completes: from every state there is a number of adaptivity steps for
    which the time step returns, and in the state it returns the time and
    the time step counter have advanced and the previous time level
    solution is whatever the new time level solution held before the time
    step: the empty solution in the first time step, the unchanged
    previous solution afterwards. *)
Theorem X14_failing_solver_stalls_the_solution `{H2D : Hermes2D} :
  rk_always_fails ->
  adapt_makes_progress ->
  forall (cfg : Transient.Config) (st : Transient.State),
    exists n st',
      Transient.time_step_body cfg n st = Ret tt st'
      /\ Transient.sln_time_prev st' = Transient.sln_time_new st
      /\ Transient.sln_time_new st' = Transient.sln_time_new st
      /\ Transient.ts st' = Transient.ts st + 1
      /\ Transient.current_time st'
         = dadd (Transient.current_time st) (Transient.time_step cfg).
Proof.
  intros Hfail Hprog cfg st.
  destruct (time_step_body_returns cfg st Hprog) as (n & st' & Hrun).
  exists n, st'. split; [exact Hrun|].
  exact (stalled_time_step cfg Hfail n st st' Hrun).
Qed.

(** The first time step of the transient driver on the small instance
    with the failing solver, started from the initial condition 7: it
    returns, and the previous solution has become the empty solution 0. *)
Lemma X14_failing_solver_stalls_the_solution_witness :
  @rk_always_fails (Toy.lib Toy.failing)
  /\ @adapt_makes_progress (Toy.lib Toy.failing)
  /\ @Transient.sln_time_prev (Toy.lib Toy.failing) MoreRuns.stalled_start = 7
  /\ @Transient.sln_time_new (Toy.lib Toy.failing) MoreRuns.stalled_start = 0
  /\ exists n st',
      @Transient.time_step_body (Toy.lib Toy.failing) MoreRuns.stalled_cfg n
        MoreRuns.stalled_start = Ret tt st'
      /\ @Transient.sln_time_prev (Toy.lib Toy.failing) st'
         = @Transient.sln_time_new (Toy.lib Toy.failing) MoreRuns.stalled_start
      /\ @Transient.sln_time_new (Toy.lib Toy.failing) st'
         = @Transient.sln_time_new (Toy.lib Toy.failing) MoreRuns.stalled_start
      /\ @Transient.ts (Toy.lib Toy.failing) st'
         = @Transient.ts (Toy.lib Toy.failing) MoreRuns.stalled_start + 1
      /\ @Transient.current_time (Toy.lib Toy.failing) st'
         = @dadd (Toy.lib Toy.failing)
             (@Transient.current_time (Toy.lib Toy.failing) MoreRuns.stalled_start)
             (@Transient.time_step (Toy.lib Toy.failing) MoreRuns.stalled_cfg).
Proof.
  assert (Hfail : @rk_always_fails (Toy.lib Toy.failing)).
  { intros rs t dt prev new. exists Toy.not_converged. reflexivity. }
  assert (Hprog : @adapt_makes_progress (Toy.lib Toy.failing)).
  { intros sp errs sp'. unfold get_num_dofs. cbn. intros [= <-]. cbn. lia. }
  split; [exact Hfail|]. split; [exact Hprog|].
  split; [reflexivity|]. split; [reflexivity|].
  exact (@X14_failing_solver_stalls_the_solution (Toy.lib Toy.failing) Hfail Hprog
           MoreRuns.stalled_cfg MoreRuns.stalled_start).
Defined.

(** That time step, evaluated: five adaptivity steps are enough. *)
Example stalled_first_time_step :
  @Transient.time_step_body (Toy.lib Toy.failing) MoreRuns.stalled_cfg 5
    MoreRuns.stalled_start = Ret tt MoreRuns.stalled_second
  /\ @Transient.sln_time_prev (Toy.lib Toy.failing) MoreRuns.stalled_second = 0
  /\ @Transient.sln_time_new (Toy.lib Toy.failing) MoreRuns.stalled_second = 0.
Proof. split; [evaluated|]. split; reflexivity. Qed.
